(** * capsulecache: a shallow embedding of the response cache

    The development follows the Go sources:
    - [cache/cache.go]: [ResponseCacheEntry], [Size], [IsStale], [IsRotten];
    - [cache/in_memory_quota_lru.go]: the quota-bounded LRU store;
    - the recorder ([ResponseRecorder]), the middleware
      ([NewCacheMiddleware]) and the configuration helpers
      ([stripHopByHop]).

    Go's [int], [int64] and [time.Duration] are 64-bit two's complement
    integers; they are modelled as [Z] with the wrap-around written out
    ([wrap64]).  Strings are byte strings ([string]), bodies are
    [list byte], [http.Header] is a finite map from header names to the
    list of their values. *)

From Stdlib Require Import ZArith Lia List.
From Stdlib.Strings Require Import Ascii String Byte.
From stdpp Require Import base option list gmap strings fin_maps.

Local Open Scope Z_scope.

(** ** 64-bit integers *)

Module Int64.

Definition min_int : Z := - 2 ^ 63.
Definition max_int : Z := 2 ^ 63 - 1.

(** Two's complement wrap-around of a mathematical integer. *)
Definition wrap64 (z : Z) : Z := (z + 2 ^ 63) mod 2 ^ 64 - 2 ^ 63.

Definition in_range (z : Z) : Prop := min_int <= z <= max_int.

Definition add (a b : Z) : Z := wrap64 (a + b).
Definition sub (a b : Z) : Z := wrap64 (a - b).
Definition mul (a b : Z) : Z := wrap64 (a * b).

End Int64.

(** ** Strings and bytes *)

Definition bytes : Type := list byte.

Definition bytes_of_string (s : string) : bytes := list_byte_of_string s.

(** [len] of a slice or of a string, as a Go [int]. *)
Definition len {A} (l : list A) : Z := Z.of_nat (length l).

(** ** net/http headers

    [http.Header] is [map[string][]string].  The methods [Add], [Set],
    [Get] and [Del] canonicalise the name they are given with
    [textproto.CanonicalMIMEHeaderKey]; indexing the map directly does
    not. *)

Module Header.

Definition t : Type := gmap string (list string).

Definition is_upper (c : ascii) : bool :=
  let n := nat_of_ascii c in (65 <=? n)%nat && (n <=? 90)%nat.
Definition is_lower (c : ascii) : bool :=
  let n := nat_of_ascii c in (97 <=? n)%nat && (n <=? 122)%nat.
Definition is_digit (c : ascii) : bool :=
  let n := nat_of_ascii c in (48 <=? n)%nat && (n <=? 57)%nat.

Definition to_upper (c : ascii) : ascii :=
  if is_lower c then ascii_of_nat (nat_of_ascii c - 32) else c.
Definition to_lower (c : ascii) : ascii :=
  if is_upper c then ascii_of_nat (nat_of_ascii c + 32) else c.

(** [validHeaderFieldByte]: the token characters of RFC 7230. *)
Definition validHeaderFieldByte (c : ascii) : bool :=
  is_upper c || is_lower c || is_digit c ||
  existsb (Ascii.eqb c)
    ["!"; "#"; "$"; "%"; "&"; "'"; "*"; "+"; "-"; "."; "^"; "_"; "`"; "|"; "~"]%char.

(** The canonicalising loop: upper case at the start and after each
    dash, lower case elsewhere. *)
Fixpoint canon_loop (upper : bool) (s : string) : string :=
  match s with
  | EmptyString => EmptyString
  | String c rest =>
      let c' := if upper then to_upper c else to_lower c in
      String c' (canon_loop (Ascii.eqb c' "-") rest)
  end.

Fixpoint all_valid (s : string) : bool :=
  match s with
  | EmptyString => true
  | String c rest => validHeaderFieldByte c && all_valid rest
  end.

(** A name holding a byte that is not a token character is returned
    unchanged. *)
Definition CanonicalMIMEHeaderKey (s : string) : string :=
  if all_valid s then canon_loop true s else s.

Definition Add (key value : string) (h : t) : t :=
  let k := CanonicalMIMEHeaderKey key in
  <[k := default [] (h !! k) ++ [value]]> h.

Definition Set_ (key value : string) (h : t) : t :=
  <[CanonicalMIMEHeaderKey key := [value]]> h.

Definition Get (key : string) (h : t) : string :=
  match h !! CanonicalMIMEHeaderKey key with
  | Some (v :: _) => v
  | _ => EmptyString
  end.

Definition Del (key : string) (h : t) : t :=
  delete (CanonicalMIMEHeaderKey key) h.

(** The mutations made through the methods of a header map. *)
Inductive Op : Type :=
  | OpAdd (key value : string)
  | OpSet (key value : string)
  | OpDel (key : string).

Definition apply (op : Op) (h : t) : t :=
  match op with
  | OpAdd key value => Add key value h
  | OpSet key value => Set_ key value h
  | OpDel key => Del key h
  end.

(** [Clone] is a deep copy; on immutable values it is the identity. *)
Definition Clone (h : t) : t := h.

(** The header lines of a map, one per name and value, in the order in
    which the map is ranged over.  (Go leaves the order of the names
    unspecified; the values of one name keep their order.) *)
Definition pairs (h : t) : list (string * string) :=
  flat_map (fun kv => map (fun v => (fst kv, v)) (snd kv)) (map_to_list h).

End Header.

(** ** cache/cache.go *)

(** [time.Time] is an instant, counted here in nanoseconds;
    [time.Duration] is an [int64] count of nanoseconds. *)
Definition Time : Type := Z.
Definition Duration : Type := Z.

(** [t.Sub(u)]: the difference, saturated at the least and greatest
    [Duration]. *)
Definition Time_Sub (t u : Time) : Duration :=
  Z.max Int64.min_int (Z.min Int64.max_int (t - u)).

(** [time.Since(t)] with the clock reading [now]. *)
Definition time_Since (now t : Time) : Duration := Time_Sub now t.

Record ResponseCacheEntry : Type := {
  StatusCode : Z;
  Headers : Header.t;
  Body : bytes;
  CreatedAt : Time;
  TTL : Duration;
  SWR : Duration
}.

(** [len(e.Headers)] is the number of keys of the map. *)
Definition Size (e : ResponseCacheEntry) : Z :=
  let bodySize := len (Body e) in
  let headerSize := Int64.mul (Z.of_nat (size (Headers e))) 30 in
  Int64.add bodySize headerSize.

Definition IsStale (now : Time) (e : ResponseCacheEntry) : bool :=
  time_Since now (CreatedAt e) >? TTL e.

Definition IsRotten (now : Time) (e : ResponseCacheEntry) : bool :=
  time_Since now (CreatedAt e) >? Int64.add (TTL e) (SWR e).

(** ** cache/in_memory_quota_lru.go *)

(** The value held by a list element. *)
Module lruEntry.
Record t : Type := mk { key : string; size : Z; value : ResponseCacheEntry }.
End lruEntry.

(** A [*list.Element] is an address; [elems] is the heap of the elements
    allocated so far, each holding its [*lruEntry].  An element removed
    from the list stays in the heap: a caller may still hold a pointer to
    it.  [lru] is the recency list, most recently used first, and an
    element belongs to the list ([e.list == l]) when its address occurs
    in it. *)
Definition Element : Type := nat.

Record InMemoryQuotaLRU : Type := mkLRU {
  elems : gmap Element lruEntry.t;
  lru : list Element;
  cache : gmap string Element;
  maxBytes : Z;
  currentBytes : Z
}.

(** *** container/list *)

Definition list_Remove (e : Element) (l : list Element) : list Element :=
  filter (fun x => x ≠ e) l.

(** [MoveToFront] does nothing on an element that is not in the list. *)
Definition list_MoveToFront (e : Element) (l : list Element) : list Element :=
  if decide (e ∈ l) then e :: list_Remove e l else l.

Definition list_PushFront (e : Element) (l : list Element) : list Element :=
  e :: l.

Definition list_Back (l : list Element) : option Element := last l.

(** *** The store *)

Definition NewInMemoryQuotaLRU (maxMB : Z) : InMemoryQuotaLRU :=
  {| elems := ∅; lru := []; cache := ∅;
     maxBytes := Int64.mul (Int64.mul maxMB 1024) 1024;
     currentBytes := 0 |}.

(** [Get], first section (read lock): the index is consulted. *)
Definition Get_lookup (key : string) (st : InMemoryQuotaLRU) : option Element :=
  cache st !! key.

(** [Get], second section (write lock): the element found by the first
    section is promoted and its entry returned.  The result is the pair
    of Go: the entry ([None] is [nil]) and the found flag. *)
Definition Get_promote (element : Element) (st : InMemoryQuotaLRU)
  : InMemoryQuotaLRU * (option ResponseCacheEntry * bool) :=
  ({| elems := elems st; lru := list_MoveToFront element (lru st);
      cache := cache st; maxBytes := maxBytes st;
      currentBytes := currentBytes st |},
   (lruEntry.value <$> elems st !! element, true)).

(** [Get] with nothing running in between its two sections. *)
Definition LRU_Get (key : string) (st : InMemoryQuotaLRU)
  : InMemoryQuotaLRU * (option ResponseCacheEntry * bool) :=
  match Get_lookup key st with
  | None => (st, (None, false))
  | Some element => Get_promote element st
  end.

(** The first half of [Set]: update in place or push a new element. *)
Definition Set_insert (key : string) (entry : ResponseCacheEntry)
  (st : InMemoryQuotaLRU) : InMemoryQuotaLRU :=
  let itemSize := Size entry in
  match cache st !! key with
  | Some element =>
      match elems st !! element with
      | Some oldEntry =>
          {| elems := <[element := lruEntry.mk (lruEntry.key oldEntry) itemSize entry]> (elems st);
             lru := list_MoveToFront element (lru st);
             cache := cache st;
             maxBytes := maxBytes st;
             currentBytes :=
               Int64.add (Int64.sub (currentBytes st) (lruEntry.size oldEntry)) itemSize |}
      | None => st (* the index only holds live elements *)
      end
  | None =>
      let element := fresh (dom (elems st)) in
      {| elems := <[element := lruEntry.mk key itemSize entry]> (elems st);
         lru := list_PushFront element (lru st);
         cache := <[key := element]> (cache st);
         maxBytes := maxBytes st;
         currentBytes := Int64.add (currentBytes st) itemSize |}
  end.

(** One turn of the eviction loop's body: the back element is removed. *)
Definition evict_one (lruElement : Element) (evictedEntry : lruEntry.t)
  (st : InMemoryQuotaLRU) : InMemoryQuotaLRU :=
  {| elems := elems st;
     lru := list_Remove lruElement (lru st);
     cache := delete (lruEntry.key evictedEntry) (cache st);
     maxBytes := maxBytes st;
     currentBytes := Int64.sub (currentBytes st) (lruEntry.size evictedEntry) |}.

(** The eviction loop; [fuel] bounds the number of turns. *)
Fixpoint evict (fuel : nat) (st : InMemoryQuotaLRU) : InMemoryQuotaLRU :=
  match fuel with
  | O => st
  | S fuel' =>
      if currentBytes st >? maxBytes st then
        match list_Back (lru st) with
        | None => st
        | Some lruElement =>
            match elems st !! lruElement with
            | Some evictedEntry => evict fuel' (evict_one lruElement evictedEntry st)
            | None => st (* the list only holds live elements *)
            end
        end
      else st
  end.

(** [Set] returns the [nil] error ([None]).  Each turn of the loop
    removes one element, so the length of the list bounds the turns. *)
Definition LRU_Set (key : string) (entry : ResponseCacheEntry)
  (st : InMemoryQuotaLRU) : InMemoryQuotaLRU * option string :=
  let st' := Set_insert key entry st in
  (evict (length (lru st')) st', None).

Definition LRU_Delete (key : string) (st : InMemoryQuotaLRU)
  : InMemoryQuotaLRU * option string :=
  match cache st !! key with
  | Some element =>
      match elems st !! element with
      | Some evictedEntry => (evict_one element evictedEntry st, None)
      | None => (st, None) (* the index only holds live elements *)
      end
  | None => (st, None)
  end.

Definition LRU_Close (st : InMemoryQuotaLRU) : InMemoryQuotaLRU * option string :=
  (st, None).

(** The [Store] interface of cache.go. *)
Class Store (S : Type) : Type := {
  Store_Get : string -> S -> S * (option ResponseCacheEntry * bool);
  Store_Set : string -> ResponseCacheEntry -> S -> S * option string;
  Store_Delete : string -> S -> S * option string;
  Store_Close : S -> S * option string
}.

#[export] Instance InMemoryQuotaLRU_Store : Store InMemoryQuotaLRU := {
  Store_Get := LRU_Get;
  Store_Set := LRU_Set;
  Store_Delete := LRU_Delete;
  Store_Close := LRU_Close
}.

(** *** Well-formed stores

    The index, the list and the running total of a store describe the
    same set of live elements. *)

Definition total_size (h : gmap Element lruEntry.t) (l : list Element) : Z :=
  foldr (fun el acc => from_option lruEntry.size 0 (h !! el) + acc) 0 l.

Record wf (st : InMemoryQuotaLRU) : Prop := {
  wf_nodup : NoDup (lru st);
  wf_live : forall el, el ∈ lru st -> is_Some (elems st !! el);
  wf_index : forall k el,
    cache st !! k = Some el <->
    el ∈ lru st /\ lruEntry.key <$> elems st !! el = Some k;
  wf_sizes : forall el e,
    el ∈ lru st -> elems st !! el = Some e -> 0 <= lruEntry.size e < 2 ^ 62;
  wf_bytes : currentBytes st = total_size (elems st) (lru st);
  wf_range : currentBytes st <= Int64.max_int
}.

(** The exit condition of the eviction loop. *)
Definition within_quota (st : InMemoryQuotaLRU) : Prop :=
  currentBytes st <= maxBytes st \/ lru st = [].

(** An entry whose size estimate is far from the end of [int64]. *)
Definition entry_fits (e : ResponseCacheEntry) : Prop :=
  len (Body e) + 30 * Z.of_nat (size (Headers e)) < 2 ^ 62.


(** *** Sequences of calls

    Every section that runs under the write lock is one atomic step.
    [OpPromote] is the second section of a [Get] whose first section ran
    earlier; [OpGet] is a [Get] whose two sections run back to back. *)

Inductive Op : Type :=
  | OpSet (key : string) (entry : ResponseCacheEntry)
  | OpDelete (key : string)
  | OpGet (key : string)
  | OpPromote (element : Element).

Definition step (st : InMemoryQuotaLRU) (op : Op) : InMemoryQuotaLRU :=
  match op with
  | OpSet key entry => (LRU_Set key entry st).1
  | OpDelete key => (LRU_Delete key st).1
  | OpGet key => (LRU_Get key st).1
  | OpPromote element => (Get_promote element st).1
  end.

Definition run (ops : list Op) (st : InMemoryQuotaLRU) : InMemoryQuotaLRU :=
  foldl step st ops.

Definition op_fits (op : Op) : Prop :=
  match op with
  | OpSet _ entry => entry_fits entry
  | _ => True
  end.

(** A [Get] between whose two sections the calls [ops] of other
    goroutines run. *)
Definition Get_interleaved (key : string) (ops : list Op) (st : InMemoryQuotaLRU)
  : InMemoryQuotaLRU * (option ResponseCacheEntry * bool) :=
  match Get_lookup key st with
  | None => (run ops st, (None, false))
  | Some element => Get_promote element (run ops st)
  end.

(** What holds between any two calls. *)
Definition inv (st : InMemoryQuotaLRU) : Prop :=
  wf st /\ within_quota st /\ maxBytes st < 2 ^ 62.

(** Sample entries used to run the store on concrete inputs. *)
Definition sample_entry (body : string) (headers : Header.t) : ResponseCacheEntry :=
  {| StatusCode := 200; Headers := headers; Body := bytes_of_string body;
     CreatedAt := 0; TTL := 1000; SWR := 1500 |}.

(** ** http.ResponseWriter

    [Header()] hands out the header map of the writer, which the caller
    then mutates through [Add], [Set] or [Del]; [rw_Header_apply] is
    such a mutation.  [Write] returns the pair [(int, error)] of Go,
    [None] being the [nil] error. *)

Class ResponseWriter (W : Type) : Type := {
  rw_Header : W -> Header.t;
  rw_Header_apply : Header.Op -> W -> W;
  rw_Write : bytes -> W -> W * (Z * option string);
  rw_WriteHeader : Z -> W -> W
}.

(** The calls a writer receives. *)
Inductive Call : Type :=
  | CallHeader (op : Header.Op)
  | CallWriteHeader (statusCode : Z)
  | CallWrite (p : bytes).

(** [discardResponseWriter] of the middleware: a header map, nothing
    else. *)
Module discardResponseWriter.
Record t : Type := mk { header : Header.t }.
Definition Header (d : t) : Header.t := header d.
Definition Write (b : bytes) (d : t) : t * (Z * option string) := (d, (len b, None)).
Definition WriteHeader (statusCode : Z) (d : t) : t := d.
End discardResponseWriter.

#[export] Instance discardResponseWriter_ResponseWriter
  : ResponseWriter discardResponseWriter.t := {
  rw_Header := discardResponseWriter.Header;
  rw_Header_apply op d :=
    discardResponseWriter.mk (Header.apply op (discardResponseWriter.header d));
  rw_Write := discardResponseWriter.Write;
  rw_WriteHeader := discardResponseWriter.WriteHeader
}.

(** The real client, as the repository's test observes it through
    [httptest.ResponseRecorder]: the first [WriteHeader] fixes the status
    and the headers that are sent, a [Write] before any [WriteHeader]
    sends status 200, and the body is every byte written. *)
Module Client.
Record t : Type := mk {
  HeaderMap : Header.t;
  Code : Z;
  wroteHeader : bool;
  snapHeader : Header.t;
  Body : bytes
}.
Definition NewRecorder : t :=
  {| HeaderMap := ∅; Code := 200; wroteHeader := false; snapHeader := ∅; Body := [] |}.
Definition WriteHeader (code : Z) (c : t) : t :=
  if wroteHeader c then c
  else {| HeaderMap := HeaderMap c; Code := code; wroteHeader := true;
          snapHeader := Header.Clone (HeaderMap c); Body := Body c |}.
Definition Write (buf : bytes) (c : t) : t * (Z * option string) :=
  let c := WriteHeader 200 c in
  ({| HeaderMap := HeaderMap c; Code := Code c; wroteHeader := wroteHeader c;
      snapHeader := snapHeader c; Body := Body c ++ buf |}, (len buf, None)).
End Client.

#[export] Instance Client_ResponseWriter : ResponseWriter Client.t := {
  rw_Header := Client.HeaderMap;
  rw_Header_apply op c :=
    {| Client.HeaderMap := Header.apply op (Client.HeaderMap c); Client.Code := Client.Code c;
       Client.wroteHeader := Client.wroteHeader c;
       Client.snapHeader := Client.snapHeader c; Client.Body := Client.Body c |};
  rw_Write := Client.Write;
  rw_WriteHeader := Client.WriteHeader
}.

(** ** The response recorder *)

Module ResponseRecorder.

Section Recorder.

Context {W : Type} `{ResponseWriter W}.

Record t : Type := mk {
  status : Z;
  header : Header.t;
  body : bytes;
  capReached : bool;
  underlying : W;
  maxBytes : Z;
  written : bool
}.

Definition http_StatusOK : Z := 200.

Definition NewResponseRecorder (responseWriter : W) (maxBodyBytes : Z) : t :=
  {| status := http_StatusOK; header := ∅; body := [];
     capReached := false; underlying := responseWriter;
     maxBytes := maxBodyBytes; written := false |}.

Definition Header (r : t) : Header.t := header r.

(** [r.body.Write(q)]. *)
Definition body_Write (q : bytes) (r : t) : t :=
  {| status := status r; header := header r; body := body r ++ q;
     capReached := capReached r; underlying := underlying r;
     maxBytes := maxBytes r; written := written r |}.

(** [r.capReached = true]. *)
Definition set_capReached (r : t) : t :=
  {| status := status r; header := header r; body := body r;
     capReached := true; underlying := underlying r;
     maxBytes := maxBytes r; written := written r |}.

Definition Write (p : bytes) (r : t) : t * (Z * option string) :=
  if maxBytes r <=? 0 then
    (* disabled: everything is recorded *)
    (body_Write p r, (len p, None))
  else
    let remaining := Int64.sub (maxBytes r) (len (body r)) in
    if remaining <=? 0 then
      (* the write is accepted, the buffer does not grow *)
      (set_capReached r, (len p, None))
    else if len p <=? remaining then
      (body_Write p r, (len p, None))
    else
      (* partial write to the buffer, up to [remaining] *)
      let q := take (Z.to_nat remaining) p in
      (set_capReached (body_Write q r), (len q, None)).

Definition WriteHeader (status' : Z) (r : t) : t :=
  {| status := status'; header := header r; body := body r;
     capReached := capReached r; underlying := underlying r;
     maxBytes := maxBytes r; written := written r |}.

Definition Body (r : t) : bytes := body r.

Definition StatusCode (r : t) : Z := status r.

(** The headers are copied to the destination pair by pair, then the
    status is written, then the body when it is not empty. *)
Definition Flush (r : t) : t :=
  if written r then r
  else
    let hdr := Header.Clone (header r) in
    let status := status r in
    let body := body r in
    let dest := underlying r in
    let dest :=
      foldl (fun d kv => rw_Header_apply (Header.OpAdd kv.1 kv.2) d) dest
            (Header.pairs hdr) in
    let dest := rw_WriteHeader status dest in
    let dest := if len body >? 0 then (rw_Write body dest).1 else dest in
    {| status := status; header := header r; body := body;
       capReached := capReached r; underlying := dest;
       maxBytes := maxBytes r; written := true |}.

End Recorder.

Arguments t W : clear implicits.

End ResponseRecorder.

#[export] Instance ResponseRecorder_ResponseWriter {W : Type} `{ResponseWriter W}
  : ResponseWriter (ResponseRecorder.t W) := {
  rw_Header := ResponseRecorder.Header;
  rw_Header_apply op r :=
    {| ResponseRecorder.status := ResponseRecorder.status r;
       ResponseRecorder.header := Header.apply op (ResponseRecorder.header r);
       ResponseRecorder.body := ResponseRecorder.body r;
       ResponseRecorder.capReached := ResponseRecorder.capReached r;
       ResponseRecorder.underlying := ResponseRecorder.underlying r;
       ResponseRecorder.maxBytes := ResponseRecorder.maxBytes r;
       ResponseRecorder.written := ResponseRecorder.written r |};
  rw_Write := ResponseRecorder.Write;
  rw_WriteHeader := ResponseRecorder.WriteHeader
}.

(** The writer that only records the calls it receives, in order. *)
Definition Log : Type := list Call.

#[export] Instance Log_ResponseWriter : ResponseWriter Log := {
  rw_Header _ := ∅;
  rw_Header_apply op l := l ++ [CallHeader op];
  rw_Write p l := (l ++ [CallWrite p], (len p, None));
  rw_WriteHeader statusCode l := l ++ [CallWriteHeader statusCode]
}.

(** ** Handlers

    What a handler does to the writer it is given is a sequence of
    calls, possibly cut short by a panic. *)

Record Request : Type := {
  Method : string;
  Path : string;
  ReqHeader : Header.t;
  ContentLength : Z;
  ReqBody : bytes
}.

Inductive Action : Type :=
  | ActHeader (op : Header.Op)
  | ActWriteHeader (statusCode : Z)
  | ActWrite (p : bytes)
  | ActPanic.

Definition Handler : Type := Request -> list Action.

(** The actions are played on the writer; the flag tells whether the
    handler panicked. *)
Fixpoint play {W : Type} `{ResponseWriter W} (acts : list Action) (w : W) : W * bool :=
  match acts with
  | [] => (w, false)
  | ActHeader op :: rest => play rest (rw_Header_apply op w)
  | ActWriteHeader statusCode :: rest => play rest (rw_WriteHeader statusCode w)
  | ActWrite p :: rest => play rest (rw_Write p w).1
  | ActPanic :: _ => (w, true)
  end.

Definition ServeHTTP {W : Type} `{ResponseWriter W} (next : Handler) (w : W)
  (request : Request) : W * bool :=
  play (next request) w.

(** The bytes a handler hands to [Write] before it returns or panics. *)
Fixpoint bytes_written (acts : list Action) : bytes :=
  match acts with
  | [] => []
  | ActWrite p :: rest => p ++ bytes_written rest
  | ActPanic :: _ => []
  | _ :: rest => bytes_written rest
  end.

Fixpoint panics (acts : list Action) : bool :=
  match acts with
  | [] => false
  | ActPanic :: _ => true
  | _ :: rest => panics rest
  end.

(** ** Configuration helpers *)

(** [strings.Split(s, sep)] for a separator of one byte. *)
Fixpoint strings_Split (s : string) (sep : ascii) : list string :=
  match s with
  | EmptyString => [EmptyString]
  | String c rest =>
      if Ascii.eqb c sep then EmptyString :: strings_Split rest sep
      else match strings_Split rest sep with
           | piece :: pieces => String c piece :: pieces
           | [] => [String c EmptyString]
           end
  end.

(** The white space of ASCII.  ([strings.TrimSpace] also trims the white
    space of Unicode beyond ASCII, which is not modelled.) *)
Definition is_space (c : ascii) : bool :=
  existsb (Ascii.eqb c) ["009"; "010"; "011"; "012"; "013"; " "]%char.

Fixpoint trim_left (s : string) : string :=
  match s with
  | String c rest => if is_space c then trim_left rest else s
  | EmptyString => EmptyString
  end.

Fixpoint trim_right (s : string) : string :=
  match s with
  | String c rest =>
      match trim_right rest with
      | EmptyString => if is_space c then EmptyString else String c EmptyString
      | rest' => String c rest'
      end
  | EmptyString => EmptyString
  end.

Definition strings_TrimSpace (s : string) : string := trim_right (trim_left s).

Definition hopByHopHeaders : list string :=
  ["Connection"; "Proxy-Connection"; "Keep-Alive";
   "Proxy-Authenticate"; "Proxy-Authorization"; "TE";
   "Trailer"; "Transfer-Encoding"; "Upgrade"]%string.

Definition stripHopByHop (header : Header.t) : Header.t :=
  let headerClone := Header.Clone header in
  let headerClone := foldl (fun h k => Header.Del k h) headerClone hopByHopHeaders in
  let conn := Header.Get "Connection" header in
  if String.eqb conn "" then headerClone
  else
    foldl (fun h token =>
             let token := strings_TrimSpace token in
             if String.eqb token "" then h else Header.Del token h)
          headerClone (strings_Split conn ",").

Record Config : Type := {
  DefaultTTL : Duration;
  DefaultSWR : Duration;
  KeyGenerator : Request -> string;
  ShouldCache : Z -> bool;
  MaxBodyBytes : Z;
  StripHeaders : Header.t -> Header.t
}.

Definition DefaultKeyGenerator (r : Request) : string :=
  ("cache:" ++ Method r ++ ":" ++ Path r)%string.

(** Five minutes and one minute, in nanoseconds. *)
Definition DefaultConfig : Config :=
  {| DefaultTTL := 5 * 60 * 1000000000;
     DefaultSWR := 1 * 60 * 1000000000;
     KeyGenerator := DefaultKeyGenerator;
     ShouldCache := fun statusCode => (200 <=? statusCode) && (statusCode <? 300);
     MaxBodyBytes := 0;
     StripHeaders := stripHopByHop |}.

(** ** The middleware *)

(** [http.Error]. *)
Definition http_Error {W : Type} `{ResponseWriter W} (w : W) (error : string)
  (code : Z) : W :=
  let w := rw_Header_apply (Header.OpDel "Content-Length") w in
  let w := rw_Header_apply (Header.OpSet "Content-Type" "text/plain; charset=utf-8") w in
  let w := rw_Header_apply (Header.OpSet "X-Content-Type-Options" "nosniff") w in
  let w := rw_WriteHeader code w in
  (rw_Write (bytes_of_string (error ++ String "010" "")) w).1.

(** The goroutines the middleware starts: the asynchronous [store.Set]
    of the miss path and the background refresh of a stale hit. *)
Inductive Spawned : Type :=
  | GoSet (cacheKey : string) (newEntry : ResponseCacheEntry)
  | GoRefresh (cacheKey : string) (req : Request).

Record Outcome (W S : Type) : Type := mkOutcome {
  out_writer : W;
  out_store : S;
  out_spawned : list Spawned;
  out_panic : bool
}.
Arguments mkOutcome {W S}.
Arguments out_writer {W S}.
Arguments out_store {W S}.
Arguments out_spawned {W S}.
Arguments out_panic {W S}.

(** [cfg] is the configuration after the [nil] check, [now] the reading
    of the clock while the request is served, and the result gathers what
    the request leaves behind: the writer, the store, the goroutines
    started, and whether a panic of the handler escaped. *)

Section Middleware.

Context {S : Type} `{Store S} {W : Type} `{ResponseWriter W}.

Variable cfg : Config.
Variable next : Handler.

(** The entry built from a capture, when it is admitted: the status
    passes [ShouldCache] and the cap was not reached. *)
Definition capture_entry {V : Type} `{ResponseWriter V}
  (rec : ResponseRecorder.t V) (now : Time) : option ResponseCacheEntry :=
  let status := ResponseRecorder.StatusCode rec in
  if ShouldCache cfg status && negb (ResponseRecorder.capReached rec) then
    Some {| StatusCode := status;
            Headers := StripHeaders cfg (Header.Clone (ResponseRecorder.Header rec));
            Body := ResponseRecorder.Body rec;
            CreatedAt := now;
            TTL := DefaultTTL cfg;
            SWR := DefaultSWR cfg |}
  else None.

(** The function run under [singleFlight.Do] by the refresh goroutine:
    the handler runs against a discarding writer and the capture, when
    admitted, is the [store.Set] the goroutine makes.  A panic of the
    handler is recovered and nothing is stored. *)
Definition refresh (now : Time) (cacheKey : string) (req : Request)
  : option (string * ResponseCacheEntry) :=
  let dw := discardResponseWriter.mk ∅ in
  let rec := ResponseRecorder.NewResponseRecorder dw (MaxBodyBytes cfg) in
  let '(rec, panicked) := ServeHTTP next rec req in
  if panicked then None
  else match capture_entry rec now with
       | Some response => Some (cacheKey, response)
       | None => None
       end.

(** The cache miss/rotten path. *)
Definition serve_miss (now : Time) (store : S) (responseWriter : W)
  (request : Request) (cacheKey : string) : Outcome W S :=
  let responseRecorder :=
    ResponseRecorder.NewResponseRecorder responseWriter (MaxBodyBytes cfg) in
  let '(responseRecorder, panicked) := ServeHTTP next responseRecorder request in
  if panicked then
    (* the deferred function recovers the panic *)
    let responseWriter := ResponseRecorder.underlying responseRecorder in
    let responseWriter :=
      if negb (ResponseRecorder.written responseRecorder) then
        http_Error responseWriter "internal server error" 500
      else responseWriter in
    mkOutcome responseWriter store [] false
  else
    let spawned :=
      match capture_entry responseRecorder now with
      | Some newEntry => [GoSet cacheKey newEntry]
      | None => []
      end in
    let responseRecorder := ResponseRecorder.Flush responseRecorder in
    mkOutcome (ResponseRecorder.underlying responseRecorder) store spawned false.

(** Serving a stored entry. *)
Definition serve_hit (now : Time) (store : S) (responseWriter : W)
  (request : Request) (cacheKey : string)
  (responseCacheEntry : ResponseCacheEntry) : Outcome W S :=
  let responseWriter :=
    foldl (fun w kv => rw_Header_apply (Header.OpAdd kv.1 kv.2) w) responseWriter
          (Header.pairs (Headers responseCacheEntry)) in
  let responseWriter :=
    rw_Header_apply (Header.OpSet "X-Cache-Status" "HIT") responseWriter in
  let '(responseWriter, spawned) :=
    if IsStale now responseCacheEntry then
      (rw_Header_apply (Header.OpSet "X-Cache-Stale" "YES") responseWriter,
       [GoRefresh cacheKey request])
    else
      (rw_Header_apply (Header.OpSet "X-Cache-Stale" "NO") responseWriter, []) in
  let responseWriter := rw_WriteHeader (StatusCode responseCacheEntry) responseWriter in
  let responseWriter :=
    if len (Body responseCacheEntry) >? 0 then
      (rw_Write (Body responseCacheEntry) responseWriter).1
    else responseWriter in
  mkOutcome responseWriter store spawned false.

(** The test of the hit branch:
    [cacheHit && responseCacheEntry != nil && !responseCacheEntry.IsRotten()]. *)
Definition servable (now : Time) (responseCacheEntry : option ResponseCacheEntry)
  (cacheHit : bool) : option ResponseCacheEntry :=
  match responseCacheEntry with
  | Some entry => if cacheHit && negb (IsRotten now entry) then Some entry else None
  | None => None
  end.

Definition NewCacheMiddleware (now : Time) (store : S) (responseWriter : W)
  (request : Request) : Outcome W S :=
  if negb (String.eqb (Method request) "GET") && negb (String.eqb (Method request) "HEAD")
  then
    let '(responseWriter, panicked) := ServeHTTP next responseWriter request in
    mkOutcome responseWriter store [] panicked
  else
    let cacheKey := KeyGenerator cfg request in
    if String.eqb cacheKey "" then
      let '(responseWriter, panicked) := ServeHTTP next responseWriter request in
      mkOutcome responseWriter store [] panicked
    else
      let '(store, (responseCacheEntry, cacheHit)) := Store_Get cacheKey store in
      match servable now responseCacheEntry cacheHit with
      | Some responseCacheEntry =>
          serve_hit now store responseWriter request cacheKey responseCacheEntry
      | None =>
          let responseWriter :=
            if negb cacheHit then
              rw_Header_apply (Header.OpSet "X-Cache-Status" "MISS") responseWriter
            else responseWriter in
          serve_miss now store responseWriter request cacheKey
      end.

(** A spawned goroutine, run to its end on the store at time [now]. *)
Definition run_spawned (now : Time) (g : Spawned) (store : S) : S :=
  match g with
  | GoSet cacheKey newEntry => (Store_Set cacheKey newEntry store).1
  | GoRefresh cacheKey req =>
      match refresh now cacheKey req with
      | Some (k, response) => (Store_Set k response store).1
      | None => store
      end
  end.

End Middleware.

(** Calls replayed on a writer, in order. *)
Definition replay {W : Type} `{ResponseWriter W} (calls : list Call) (w : W) : W :=
  foldl (fun w c =>
           match c with
           | CallHeader op => rw_Header_apply op w
           | CallWriteHeader statusCode => rw_WriteHeader statusCode w
           | CallWrite p => (rw_Write p w).1
           end) w calls.

Definition is_WriteHeader (a : Action) : bool :=
  match a with ActWriteHeader _ => true | _ => false end.

(** A configuration, a handler and a request to run the middleware on:
    the ones of the repository's test, with the cap as a parameter. *)
Definition sample_config (maxBodyBytes : Z) : Config :=
  {| DefaultTTL := 1000; DefaultSWR := 1500;
     KeyGenerator := DefaultKeyGenerator;
     ShouldCache := fun statusCode => statusCode =? 200;
     MaxBodyBytes := maxBodyBytes;
     StripHeaders := stripHopByHop |}.

Definition sample_handler (body : string) : Handler :=
  fun _ => [ActWriteHeader 200; ActWrite (bytes_of_string body)].

Definition sample_request : Request :=
  {| Method := "GET"; Path := "/"; ReqHeader := ∅; ContentLength := 0; ReqBody := [] |}.

(** The names listed in the first [Connection] value of a header map,
    trimmed, the empty ones left out: [header.Get] returns the first
    value only. *)
Definition connection_tokens (header : Header.t) : list string :=
  filter (fun token => token ≠ EmptyString)
         (map strings_TrimSpace (strings_Split (Header.Get "Connection" header) ",")).

(** A method name without a colon (every HTTP method is a token). *)
Fixpoint no_colon (s : string) : bool :=
  match s with
  | EmptyString => true
  | String c rest => negb (Ascii.eqb c ":") && no_colon rest
  end.
(** * Properties *)

(** ** 64-bit arithmetic *)

Lemma wrap64_id z : Int64.in_range z -> Int64.wrap64 z = z.
Proof.
  unfold Int64.in_range, Int64.min_int, Int64.max_int, Int64.wrap64. intros H.
  rewrite Z.mod_small; lia.
Qed.

Lemma wrap64_range z : Int64.in_range (Int64.wrap64 z).
Proof.
  unfold Int64.in_range, Int64.min_int, Int64.max_int, Int64.wrap64.
  pose proof (Z.mod_pos_bound (z + 2 ^ 63) (2 ^ 64) ltac:(lia)). lia.
Qed.

(** ** The bounded LRU store *)

Section ListLemmas.

Implicit Types (l : list Element) (e x : Element).

Lemma elem_of_list_Remove e x l : x ∈ list_Remove e l <-> x ∈ l /\ x ≠ e.
Proof. unfold list_Remove. rewrite list_elem_of_filter. tauto. Qed.

Lemma NoDup_list_Remove e l : NoDup l -> NoDup (list_Remove e l).
Proof. apply NoDup_filter. Qed.

Lemma list_Remove_notin e l : e ∉ l -> list_Remove e l = l.
Proof.
  induction l as [|x l IH]; [done|].
  rewrite not_elem_of_cons. intros [Hne Hnotin].
  unfold list_Remove in *. rewrite filter_cons_True by congruence.
  by rewrite IH.
Qed.

Lemma list_Remove_snoc e l : e ∉ l -> list_Remove e (l ++ [e]) = l.
Proof.
  intros Hnotin. unfold list_Remove. rewrite filter_app.
  fold (list_Remove e l). rewrite list_Remove_notin by done.
  rewrite filter_cons_False by tauto. by rewrite filter_nil, app_nil_r.
Qed.

Lemma list_Remove_length e l : (length (list_Remove e l) <= length l)%nat.
Proof. apply length_filter. Qed.

Lemma NoDup_list_MoveToFront e l : NoDup l -> NoDup (list_MoveToFront e l).
Proof.
  intros Hnd. unfold list_MoveToFront. case_decide; [|done].
  apply NoDup_cons. split; [|by apply NoDup_list_Remove].
  rewrite elem_of_list_Remove. tauto.
Qed.

Lemma elem_of_list_MoveToFront e x l : x ∈ list_MoveToFront e l <-> x ∈ l.
Proof.
  unfold list_MoveToFront. case_decide; [|done].
  rewrite elem_of_cons, elem_of_list_Remove.
  destruct (decide (x = e)); subst; tauto.
Qed.

End ListLemmas.

Section TotalSize.

Implicit Types (h : gmap Element lruEntry.t) (l : list Element).

Lemma total_size_cons h el l :
  total_size h (el :: l) = from_option lruEntry.size 0 (h !! el) + total_size h l.
Proof. done. Qed.

Lemma total_size_app h l1 l2 :
  total_size h (l1 ++ l2) = total_size h l1 + total_size h l2.
Proof.
  induction l1 as [|x l1 IH]; [done|].
  rewrite <- app_comm_cons, !total_size_cons, IH. lia.
Qed.

(** Taking one element out of a duplicate-free list takes its size out
    of the total. *)
Lemma total_size_Remove h el l :
  NoDup l -> el ∈ l ->
  total_size h l = from_option lruEntry.size 0 (h !! el) + total_size h (list_Remove el l).
Proof.
  induction l as [|x l IH]; intros Hnd Hin; [by apply elem_of_nil in Hin|].
  apply NoDup_cons in Hnd as [Hx Hnd].
  unfold list_Remove in *. destruct (decide (x = el)) as [->|Hne].
  - rewrite filter_cons_False by tauto.
    fold (list_Remove el l). by rewrite list_Remove_notin.
  - rewrite filter_cons_True by done. rewrite !total_size_cons.
    apply elem_of_cons in Hin as [Heq|Hin]; [congruence|].
    rewrite (IH Hnd Hin). lia.
Qed.

Lemma total_size_MoveToFront h el l :
  NoDup l -> total_size h (list_MoveToFront el l) = total_size h l.
Proof.
  intros Hnd. unfold list_MoveToFront. case_decide; [|done].
  by rewrite total_size_cons, <- total_size_Remove.
Qed.

(** Writing the heap at an address outside the list leaves the total. *)
Lemma total_size_insert_notin h el v l :
  el ∉ l -> total_size (<[el := v]> h) l = total_size h l.
Proof.
  induction l as [|x l IH]; [done|].
  rewrite not_elem_of_cons. intros [Hne Hnotin].
  rewrite !total_size_cons, IH by done.
  by rewrite lookup_insert_ne.
Qed.

Lemma total_size_nonneg h l :
  (forall el e, el ∈ l -> h !! el = Some e -> 0 <= lruEntry.size e) ->
  0 <= total_size h l.
Proof.
  induction l as [|x l IH]; intros Hsz; [done|].
  rewrite total_size_cons.
  assert (0 <= total_size h l).
  { apply IH. intros el e Hin. apply Hsz. by apply elem_of_cons; right. }
  destruct (h !! x) as [e|] eqn:Hx; simpl; [|lia].
  pose proof (Hsz x e ltac:(apply elem_of_cons; by left) Hx). lia.
Qed.

End TotalSize.

Lemma Size_fits e :
  entry_fits e ->
  Size e = len (Body e) + 30 * Z.of_nat (size (Headers e)) /\ 0 <= Size e < 2 ^ 62.
Proof.
  unfold entry_fits, Size, Int64.add, Int64.mul, len. intros Hfit.
  rewrite (wrap64_id (_ * 30)), wrap64_id;
    unfold Int64.in_range, Int64.min_int, Int64.max_int; lia.
Qed.

Section WellFormed.

Implicit Types (st : InMemoryQuotaLRU) (el : Element).

Lemma wf_New maxMB : wf (NewInMemoryQuotaLRU maxMB).
Proof.
  split; simpl.
  - constructor.
  - intros el Hin. by apply elem_of_nil in Hin.
  - intros k el. rewrite lookup_empty, elem_of_nil. split; [discriminate|tauto].
  - intros el e Hin. by apply elem_of_nil in Hin.
  - done.
  - done.
Qed.

Lemma wf_currentBytes_nonneg st : wf st -> 0 <= currentBytes st.
Proof.
  intros Hwf. rewrite (wf_bytes _ Hwf). apply total_size_nonneg.
  intros el e Hin Hel. by apply (wf_sizes _ Hwf el e).
Qed.

(** The size of a listed element is part of the running total. *)
Lemma wf_size_le st el e :
  wf st -> el ∈ lru st -> elems st !! el = Some e ->
  0 <= lruEntry.size e <= currentBytes st.
Proof.
  intros Hwf Hin Hel. pose proof (wf_sizes _ Hwf el e Hin Hel) as Hsz.
  split; [lia|]. rewrite (wf_bytes _ Hwf).
  rewrite (total_size_Remove _ el) by (done || apply Hwf).
  rewrite Hel. simpl.
  assert (0 <= total_size (elems st) (list_Remove el (lru st))); [|lia].
  apply total_size_nonneg. intros el' e' Hin' Hel'.
  apply elem_of_list_Remove in Hin' as [Hin' _].
  by apply (wf_sizes _ Hwf el' e').
Qed.

Lemma wf_Get_promote st el : wf st -> wf (Get_promote el st).1.
Proof.
  intros Hwf. split; simpl.
  - apply NoDup_list_MoveToFront, Hwf.
  - intros x. rewrite elem_of_list_MoveToFront. apply Hwf.
  - intros k x. rewrite elem_of_list_MoveToFront. apply Hwf.
  - intros x e. rewrite elem_of_list_MoveToFront. apply Hwf.
  - rewrite total_size_MoveToFront; apply Hwf.
  - apply Hwf.
Qed.

Lemma evict_one_bytes st el e :
  wf st -> el ∈ lru st -> elems st !! el = Some e ->
  currentBytes (evict_one el e st) = currentBytes st - lruEntry.size e.
Proof.
  intros Hwf Hin Hel. simpl. unfold Int64.sub.
  pose proof (wf_size_le _ _ _ Hwf Hin Hel).
  pose proof (wf_range _ Hwf).
  apply wrap64_id.
  unfold Int64.in_range, Int64.min_int, Int64.max_int in *. lia.
Qed.

Lemma wf_evict_one st el e :
  wf st -> el ∈ lru st -> elems st !! el = Some e -> wf (evict_one el e st).
Proof.
  intros Hwf Hin Hel.
  pose proof (evict_one_bytes _ _ _ Hwf Hin Hel) as Hbytes.
  pose proof (wf_size_le _ _ _ Hwf Hin Hel) as Hle.
  split.
  - apply NoDup_list_Remove, Hwf.
  - intros x. simpl. rewrite elem_of_list_Remove. intros [Hx _]. by apply Hwf.
  - intros k x. simpl. rewrite elem_of_list_Remove.
    assert (cache st !! lruEntry.key e = Some el) as Hidx.
    { apply (wf_index _ Hwf). by rewrite Hel. }
    split.
    + intros Hlk. apply lookup_delete_Some in Hlk as [Hne Hlk].
      apply (wf_index _ Hwf) in Hlk as [Hx Hkey].
      repeat split; [done| |done].
      intros ->. rewrite Hel in Hkey. simpl in Hkey. congruence.
    + intros [[Hx Hne] Hkey].
      assert (cache st !! k = Some x) as Hlk by (by apply (wf_index _ Hwf)).
      apply lookup_delete_Some. split; [|done].
      intros <-. congruence.
  - intros x e'. simpl. rewrite elem_of_list_Remove. intros [Hx _].
    by apply Hwf.
  - rewrite Hbytes. simpl. rewrite (wf_bytes _ Hwf).
    rewrite (total_size_Remove _ el) by (done || apply Hwf).
    rewrite Hel. simpl. lia.
  - rewrite Hbytes. pose proof (wf_range _ Hwf). lia.
Qed.

Lemma wf_Set_insert st key entry :
  wf st -> entry_fits entry -> currentBytes st < 2 ^ 62 ->
  wf (Set_insert key entry st).
Proof.
  intros Hwf Hfit Hcb. destruct (Size_fits _ Hfit) as [_ Hsz].
  pose proof (wf_currentBytes_nonneg _ Hwf) as Hnn.
  unfold Set_insert.
  destruct (cache st !! key) as [el|] eqn:Hlk.
  - apply (wf_index _ Hwf) in Hlk as Hidx. destruct Hidx as [Hin Hkey].
    destruct (elems st !! el) as [old|] eqn:Hel; [|done].
    simpl in Hkey. injection Hkey as Hkey.
    pose proof (wf_size_le _ _ _ Hwf Hin Hel) as Hle.
    assert (Int64.add (Int64.sub (currentBytes st) (lruEntry.size old)) (Size entry)
            = currentBytes st - lruEntry.size old + Size entry) as Hbytes.
    { unfold Int64.add, Int64.sub.
      rewrite (wrap64_id (_ - _)), wrap64_id;
        unfold Int64.in_range, Int64.min_int, Int64.max_int; lia. }
    split; cbn [elems lru cache maxBytes currentBytes].
    + apply NoDup_list_MoveToFront, Hwf.
    + intros x. rewrite elem_of_list_MoveToFront. intros Hx.
      destruct (decide (x = el)) as [->|Hne].
      * rewrite lookup_insert_eq. eauto.
      * rewrite lookup_insert_ne by done. by apply Hwf.
    + intros k x. rewrite elem_of_list_MoveToFront.
      rewrite (wf_index _ Hwf k x).
      destruct (decide (x = el)) as [->|Hne].
      * rewrite lookup_insert_eq, Hel. simpl. by rewrite Hkey.
      * by rewrite lookup_insert_ne.
    + intros x e. rewrite elem_of_list_MoveToFront. intros Hx.
      destruct (decide (x = el)) as [->|Hne].
      * rewrite lookup_insert_eq. intros [= <-]. simpl. lia.
      * rewrite lookup_insert_ne by done. by apply Hwf.
    + rewrite Hbytes. unfold list_MoveToFront. rewrite decide_True by done.
      rewrite total_size_cons, lookup_insert_eq. simpl.
      rewrite total_size_insert_notin.
      2:{ rewrite elem_of_list_Remove. tauto. }
      rewrite (wf_bytes _ Hwf).
      rewrite (total_size_Remove _ el (lru st)) by (done || apply Hwf).
      rewrite Hel. simpl. lia.
    + rewrite Hbytes. unfold Int64.max_int. lia.
  - set (el := fresh (dom (elems st))).
    assert (elems st !! el = None) as Hfresh.
    { apply not_elem_of_dom. apply is_fresh. }
    assert (el ∉ lru st) as Hnotin.
    { intros Hin. apply (wf_live _ Hwf) in Hin as [? ?]. congruence. }
    assert (Int64.add (currentBytes st) (Size entry) = currentBytes st + Size entry)
      as Hbytes.
    { unfold Int64.add. apply wrap64_id.
      unfold Int64.in_range, Int64.min_int, Int64.max_int. lia. }
    split; cbn [elems lru cache maxBytes currentBytes]; unfold list_PushFront.
    + apply NoDup_cons. split; [done|apply Hwf].
    + intros x. rewrite elem_of_cons. intros [->|Hx].
      * rewrite lookup_insert_eq. eauto.
      * rewrite lookup_insert_ne by congruence. by apply Hwf.
    + intros k x. rewrite elem_of_cons.
      destruct (decide (x = el)) as [->|Hne].
      * rewrite lookup_insert_eq. simpl. split.
        -- intros Hk. destruct (decide (key = k)) as [->|Hnk]; [by split; [left|]|].
           rewrite lookup_insert_ne in Hk by done.
           apply (wf_index _ Hwf) in Hk as [Hin _]. done.
        -- intros [_ [= ->]]. by rewrite lookup_insert_eq.
      * rewrite (lookup_insert_ne (elems st)) by done.
        destruct (decide (key = k)) as [->|Hnk].
        -- rewrite lookup_insert_eq. split; [congruence|].
           intros [[?|Hin] Hkey]; [done|].
           assert (cache st !! k = Some x) by (by apply (wf_index _ Hwf)).
           congruence.
        -- rewrite lookup_insert_ne by done.
           rewrite (wf_index _ Hwf k x). intuition congruence.
    + intros x e. rewrite elem_of_cons. intros [->|Hx].
      * rewrite lookup_insert_eq. intros [= <-]. simpl. lia.
      * rewrite lookup_insert_ne by congruence. by apply Hwf.
    + rewrite Hbytes, total_size_cons, lookup_insert_eq. simpl.
      rewrite total_size_insert_notin by done.
      rewrite (wf_bytes _ Hwf). lia.
    + rewrite Hbytes. unfold Int64.max_int. lia.
Qed.

End WellFormed.

(** *** The eviction loop *)

Section Eviction.

Implicit Types (st : InMemoryQuotaLRU) (el : Element).

Lemma evict_maxBytes fuel st : maxBytes (evict fuel st) = maxBytes st.
Proof.
  revert st. induction fuel as [|fuel IH]; intros st; [done|].
  simpl. destruct (currentBytes st >? maxBytes st); [|done].
  destruct (list_Back (lru st)) as [el|]; [|done].
  destruct (elems st !! el) as [e|]; [|done].
  by rewrite IH.
Qed.

Lemma evict_elems fuel st : elems (evict fuel st) = elems st.
Proof.
  revert st. induction fuel as [|fuel IH]; intros st; [done|].
  simpl. destruct (currentBytes st >? maxBytes st); [|done].
  destruct (list_Back (lru st)) as [el|]; [|done].
  destruct (elems st !! el) as [e|]; [|done].
  by rewrite IH.
Qed.

(** The back element of a well-formed store, and the list without it. *)
Lemma wf_Back st el :
  wf st -> list_Back (lru st) = Some el ->
  exists e front,
    elems st !! el = Some e /\ lru st = front ++ [el] /\
    list_Remove el (lru st) = front.
Proof.
  intros Hwf Hback. unfold list_Back in Hback.
  apply last_Some in Hback as [front Hfront].
  assert (el ∈ lru st) as Hin.
  { rewrite Hfront. apply elem_of_app. right. by apply list_elem_of_singleton. }
  destruct (wf_live _ Hwf el Hin) as [e He].
  exists e, front. repeat split; [done..|].
  rewrite Hfront. apply list_Remove_snoc.
  pose proof (wf_nodup _ Hwf) as Hnd. rewrite Hfront in Hnd.
  apply NoDup_app in Hnd as (_ & Hdisj & _).
  intros Hel. apply (Hdisj el Hel). by apply list_elem_of_singleton.
Qed.

Lemma wf_evict fuel st : wf st -> wf (evict fuel st).
Proof.
  revert st. induction fuel as [|fuel IH]; intros st Hwf; [done|].
  simpl. destruct (currentBytes st >? maxBytes st); [|done].
  destruct (list_Back (lru st)) as [el|] eqn:Hback; [|done].
  destruct (wf_Back _ _ Hwf Hback) as (e & front & He & Hfront & _).
  rewrite He. apply IH. apply wf_evict_one; [done| |done].
  rewrite Hfront. apply elem_of_app. right. by apply list_elem_of_singleton.
Qed.

(** With the length of the list as fuel the loop runs to its exit. *)
Lemma evict_exit fuel st :
  wf st -> (length (lru st) <= fuel)%nat -> within_quota (evict fuel st).
Proof.
  revert st. induction fuel as [|fuel IH]; intros st Hwf Hlen.
  - right. simpl. apply nil_length_inv. lia.
  - simpl. destruct (Z.gtb_spec (currentBytes st) (maxBytes st)) as [Hover|Hover].
    2:{ by left. }
    destruct (list_Back (lru st)) as [el|] eqn:Hback.
    2:{ right. by apply last_None. }
    destruct (wf_Back _ _ Hwf Hback) as (e & front & He & Hfront & Hrem).
    assert (el ∈ lru st) as Hin.
    { rewrite Hfront. apply elem_of_app. right. by apply list_elem_of_singleton. }
    rewrite He. apply IH; [by apply wf_evict_one|].
    simpl. rewrite Hrem. rewrite Hfront, length_app in Hlen. simpl in Hlen. lia.
Qed.

(** What the loop does: it keeps a prefix of the list (it removes from
    the back), the running total goes down by the sizes of the removed
    elements, and it stops at the first prefix that fits the quota:
    every longer prefix is over quota. *)
Lemma evict_spec fuel st :
  wf st -> (length (lru st) <= fuel)%nat ->
  exists n : nat,
    (n <= length (lru st))%nat /\
    lru (evict fuel st) = take n (lru st) /\
    currentBytes (evict fuel st)
      = currentBytes st - total_size (elems st) (drop n (lru st)) /\
    forall m : nat,
      (n < m <= length (lru st))%nat ->
      currentBytes st - total_size (elems st) (drop m (lru st)) > maxBytes st.
Proof.
  revert st. induction fuel as [|fuel IH]; intros st Hwf Hlen.
  - exists (length (lru st)). simpl.
    rewrite firstn_all, drop_all. simpl. repeat split; [lia..|]. intros m. lia.
  - simpl. destruct (Z.gtb_spec (currentBytes st) (maxBytes st)) as [Hover|Hover].
    2:{ exists (length (lru st)). rewrite firstn_all, drop_all. simpl.
        repeat split; [lia..|]. intros m. lia. }
    destruct (list_Back (lru st)) as [el|] eqn:Hback.
    2:{ exists (length (lru st)). rewrite firstn_all, drop_all. simpl.
        repeat split; [lia..|]. intros m. lia. }
    destruct (wf_Back _ _ Hwf Hback) as (e & front & He & Hfront & Hrem).
    assert (el ∈ lru st) as Hin.
    { rewrite Hfront. apply elem_of_app. right. by apply list_elem_of_singleton. }
    rewrite He.
    pose proof (evict_one_bytes _ _ _ Hwf Hin He) as Hbytes.
    assert (lru (evict_one el e st) = front) as Hlru by done.
    assert (length (lru st) = S (length front)) as Hlen'.
    { rewrite Hfront, length_app. simpl. lia. }
    destruct (IH (evict_one el e st)) as (n & Hn & Htake & Hcb & Hmin).
    { by apply wf_evict_one. }
    { rewrite Hlru. lia. }
    rewrite Hlru in *. change (elems (evict_one el e st)) with (elems st) in *.
    change (maxBytes (evict_one el e st)) with (maxBytes st) in *.
    assert (forall m : nat, (m <= length front)%nat ->
              total_size (elems st) (drop m (lru st))
              = total_size (elems st) (drop m front) + lruEntry.size e) as Hdrop.
    { intros m Hm. rewrite Hfront, drop_app_le by done.
      rewrite total_size_app, total_size_cons, He. simpl. lia. }
    exists n. repeat split.
    + lia.
    + rewrite Htake, Hfront. by rewrite take_app_le.
    + rewrite Hcb, Hbytes, Hdrop by done. lia.
    + intros m Hm. destruct (decide (m = S (length front))) as [->|Hne].
      * rewrite <- Hlen', drop_all. simpl. lia.
      * rewrite Hdrop by lia. specialize (Hmin m ltac:(lia)). lia.
Qed.

End Eviction.


(** *** Calls preserve the invariant *)

Section Invariant.

Implicit Types (st : InMemoryQuotaLRU) (el : Element).

Lemma New_maxBytes maxMB :
  - 2 ^ 42 < maxMB < 2 ^ 42 ->
  maxBytes (NewInMemoryQuotaLRU maxMB) = maxMB * 1048576.
Proof.
  intros Hmb. simpl. unfold Int64.mul.
  rewrite (wrap64_id (maxMB * 1024)), wrap64_id;
    unfold Int64.in_range, Int64.min_int, Int64.max_int; lia.
Qed.

Lemma inv_New maxMB : - 2 ^ 42 < maxMB < 2 ^ 42 -> inv (NewInMemoryQuotaLRU maxMB).
Proof.
  intros Hmb. split; [apply wf_New|]. split; [by right|].
  rewrite New_maxBytes by done. lia.
Qed.

Lemma inv_currentBytes st : inv st -> 0 <= currentBytes st < 2 ^ 62.
Proof.
  intros (Hwf & Hq & Hmax). split; [by apply wf_currentBytes_nonneg|].
  destruct Hq as [Hle|Hnil]; [lia|].
  rewrite (wf_bytes _ Hwf), Hnil. simpl. lia.
Qed.

Lemma Set_insert_maxBytes st key entry :
  maxBytes (Set_insert key entry st) = maxBytes st.
Proof.
  unfold Set_insert. destruct (cache st !! key) as [el|]; [|done].
  by destruct (elems st !! el).
Qed.

Lemma inv_Set st key entry : inv st -> entry_fits entry -> inv (LRU_Set key entry st).1.
Proof.
  intros Hinv Hfit. pose proof (inv_currentBytes _ Hinv) as Hcb.
  destruct Hinv as (Hwf & Hq & Hmax). unfold LRU_Set. simpl.
  assert (wf (Set_insert key entry st)) as Hwf' by (apply wf_Set_insert; [done..|lia]).
  split; [|split].
  - by apply wf_evict.
  - by apply evict_exit.
  - by rewrite evict_maxBytes, Set_insert_maxBytes.
Qed.

Lemma inv_Delete st key : inv st -> inv (LRU_Delete key st).1.
Proof.
  intros (Hwf & Hq & Hmax). unfold LRU_Delete.
  destruct (cache st !! key) as [el|] eqn:Hlk; [|done].
  apply (wf_index _ Hwf) in Hlk as [Hin _].
  destruct (elems st !! el) as [e|] eqn:Hel; [|done].
  cbn [fst]. split; [|split].
  - by apply wf_evict_one.
  - destruct Hq as [Hle|Hnil].
    + left. rewrite evict_one_bytes by done.
      pose proof (wf_size_le _ _ _ Hwf Hin Hel).
      change (maxBytes (evict_one el e st)) with (maxBytes st). lia.
    + rewrite Hnil in Hin. by apply elem_of_nil in Hin.
  - done.
Qed.

Lemma inv_Get_promote st el : inv st -> inv (Get_promote el st).1.
Proof.
  intros (Hwf & Hq & Hmax). split; [|split].
  - by apply wf_Get_promote.
  - destruct Hq as [Hle|Hnil]; [by left|right].
    simpl. rewrite Hnil. unfold list_MoveToFront.
    case_decide as Hin; [by apply elem_of_nil in Hin|done].
  - done.
Qed.

Lemma inv_Get st key : inv st -> inv (LRU_Get key st).1.
Proof.
  intros Hinv. unfold LRU_Get. destruct (Get_lookup key st); [|done].
  by apply inv_Get_promote.
Qed.

Lemma inv_step st op : inv st -> op_fits op -> inv (step st op).
Proof.
  intros Hinv Hfit. destruct op; simpl in Hfit.
  - by apply inv_Set.
  - by apply inv_Delete.
  - by apply inv_Get.
  - by apply inv_Get_promote.
Qed.

Lemma inv_run ops st : inv st -> Forall op_fits ops -> inv (run ops st).
Proof.
  revert st. induction ops as [|op ops IH]; intros st Hinv Hfit; [done|].
  apply Forall_cons in Hfit as [Hop Hops].
  simpl. apply IH; [|done]. by apply inv_step.
Qed.

Lemma step_maxBytes st op : maxBytes (step st op) = maxBytes st.
Proof.
  destruct op; simpl.
  - by rewrite evict_maxBytes, Set_insert_maxBytes.
  - unfold LRU_Delete. destruct (cache st !! key) as [el|]; [|done].
    by destruct (elems st !! el).
  - unfold LRU_Get. by destruct (Get_lookup key st).
  - done.
Qed.

Lemma run_maxBytes ops st : maxBytes (run ops st) = maxBytes st.
Proof.
  revert st. induction ops as [|op ops IH]; intros st; [done|].
  simpl. by rewrite IH, step_maxBytes.
Qed.

End Invariant.

(** *** The quota *)

Section Quota.

Implicit Types (st : InMemoryQuotaLRU) (el : Element).

(** After the first half of [Set] the entry just written sits at the
    front of the list, with its size. *)
Lemma Set_insert_front st key entry :
  wf st ->
  exists el rest k,
    lru (Set_insert key entry st) = el :: rest /\
    elems (Set_insert key entry st) !! el = Some (lruEntry.mk k (Size entry) entry).
Proof.
  intros Hwf. unfold Set_insert.
  destruct (cache st !! key) as [el|] eqn:Hlk.
  - apply (wf_index _ Hwf) in Hlk as [Hin _].
    destruct (wf_live _ Hwf el Hin) as [old Hold]. rewrite Hold.
    exists el, (list_Remove el (lru st)), (lruEntry.key old).
    cbn [lru elems]. unfold list_MoveToFront. rewrite decide_True by done.
    by rewrite lookup_insert_eq.
  - eexists _, _, _. cbn [lru elems]. unfold list_PushFront.
    split; [done|]. by rewrite lookup_insert_eq.
Qed.

Lemma wf_empty_cache st : wf st -> lru st = [] -> cache st = ∅.
Proof.
  intros Hwf Hnil. apply map_eq. intros k. rewrite lookup_empty.
  destruct (cache st !! k) as [el|] eqn:Hlk; [|done].
  apply (wf_index _ Hwf) in Hlk as [Hin _].
  rewrite Hnil in Hin. by apply elem_of_nil in Hin.
Qed.

(** An entry larger than the whole quota empties the store. *)
Lemma Set_oversized st key entry :
  inv st -> entry_fits entry -> maxBytes st < Size entry ->
  lru (LRU_Set key entry st).1 = [] /\ cache (LRU_Set key entry st).1 = ∅.
Proof.
  intros Hinv Hfit Hover.
  pose proof (inv_Set _ key entry Hinv Hfit) as (Hwf2 & Hq2 & _).
  pose proof (inv_currentBytes _ Hinv) as Hcb.
  destruct Hinv as (Hwf & Hq & Hmax).
  assert (wf (Set_insert key entry st)) as Hwf1 by (apply wf_Set_insert; [done..|lia]).
  assert (lru (LRU_Set key entry st).1 = []) as Hnil.
  { destruct (Set_insert_front st key entry Hwf) as (el & rest & k & Hfront & Hel).
    destruct (evict_spec (length (lru (Set_insert key entry st))) _ Hwf1 ltac:(lia))
      as (n & Hn & Htake & _).
    unfold LRU_Set in *. cbn [fst] in *.
    destruct n as [|n]; [by rewrite Htake|].
    destruct Hq2 as [Hle|Hnil]; [exfalso|done].
    rewrite evict_maxBytes, Set_insert_maxBytes in Hle.
    assert (el ∈ lru (evict (length (lru (Set_insert key entry st)))
                        (Set_insert key entry st))) as Hin.
    { rewrite Htake, Hfront. simpl. by left. }
    assert (elems (evict (length (lru (Set_insert key entry st)))
                     (Set_insert key entry st)) !! el
            = Some (lruEntry.mk k (Size entry) entry)) as Hel'.
    { by rewrite evict_elems. }
    pose proof (wf_size_le _ _ _ Hwf2 Hin Hel') as Hsz. simpl in Hsz. lia. }
  split; [done|]. by apply wf_empty_cache.
Qed.

End Quota.

(** C4.  For every sequence of calls on a store built with a quota of
    [maxMB] megabytes, once a [Set] returns the running total is the sum
    of the sizes of the listed entries and does not exceed the quota.
    The eviction of that [Set] keeps a prefix of the recency list (it
    removes from the least-recently-used end), takes the size of every
    removed entry out of the total, stops with the total within quota or
    the list empty, and removes no more than needed: with any fewer
    removals the total is still over quota.  Sizes are assumed far from
    the end of [int64] and the quota non-negative. *)
Theorem Set_enforces_quota (maxMB : Z) (ops : list Op) (key : string)
    (entry : ResponseCacheEntry) :
  0 <= maxMB < 2 ^ 42 -> Forall op_fits ops -> entry_fits entry ->
  let st := run ops (NewInMemoryQuotaLRU maxMB) in
  let st1 := Set_insert key entry st in
  let st2 := (LRU_Set key entry st).1 in
  maxBytes st2 = maxMB * 1048576 /\
  currentBytes st2 = total_size (elems st2) (lru st2) /\
  currentBytes st2 <= maxBytes st2 /\
  exists n : nat,
    (n <= length (lru st1))%nat /\
    lru st2 = take n (lru st1) /\
    currentBytes st2 = currentBytes st1 - total_size (elems st1) (drop n (lru st1)) /\
    (currentBytes st2 <= maxBytes st2 \/ lru st2 = []) /\
    forall m : nat,
      (n < m <= length (lru st1))%nat ->
      currentBytes st1 - total_size (elems st1) (drop m (lru st1)) > maxBytes st1.
Proof.
  intros Hmb Hops Hfit st st1 st2.
  assert (inv st) as Hinv by (apply inv_run; [apply inv_New; lia|done]).
  pose proof (inv_Set _ key entry Hinv Hfit) as (Hwf2 & Hq2 & _).
  pose proof (inv_currentBytes _ Hinv) as Hcb.
  assert (maxBytes st2 = maxMB * 1048576) as Hmax.
  { unfold st2, LRU_Set, st. cbn [fst].
    rewrite evict_maxBytes, Set_insert_maxBytes, run_maxBytes.
    apply New_maxBytes. lia. }
  assert (wf st1) as Hwf1.
  { destruct Hinv as (Hwf & _ & _). apply wf_Set_insert; [done..|lia]. }
  split; [done|]. split; [apply (wf_bytes _ Hwf2)|]. split.
  - destruct Hq2 as [Hle|Hnil]; [done|].
    rewrite Hmax. unfold st2. rewrite (wf_bytes _ Hwf2), Hnil. simpl. lia.
  - destruct (evict_spec (length (lru st1)) st1 Hwf1 ltac:(lia))
      as (n & Hn & Htake & Hbytes & Hmin).
    exists n. by repeat split.
Qed.

Lemma Set_enforces_quota_witness :
  let ops := [OpSet "a" (sample_entry "aaa" ∅); OpGet "a"; OpDelete "b"] in
  let st2 := (LRU_Set "b" (sample_entry "bb" ∅)
                (run ops (NewInMemoryQuotaLRU 1))).1 in
  currentBytes st2 <= maxBytes st2.
Proof.
  intros ops st2.
  refine (proj1 (proj2 (proj2
    (Set_enforces_quota 1 ops "b" (sample_entry "bb" ∅) _ _ _)))).
  - lia.
  - repeat constructor; vm_compute; reflexivity.
  - vm_compute; reflexivity.
Defined.

(** C10, as the code has it.  An entry whose size alone exceeds the
    quota is accepted by [Set] without an error, and when [Set] returns
    the store is empty: the new entry and every older one were evicted,
    and a [Get] of the key reports not found.  With a quota of 0
    megabytes this is the fate of every entry of positive size. *)
Theorem Set_oversized_not_retained (maxMB : Z) (ops : list Op) (key : string)
    (entry : ResponseCacheEntry) :
  - 2 ^ 42 < maxMB < 2 ^ 42 -> Forall op_fits ops -> entry_fits entry ->
  let st := run ops (NewInMemoryQuotaLRU maxMB) in
  maxMB * 1048576 < Size entry ->
  let r := LRU_Set key entry st in
  r.2 = None /\ lru r.1 = [] /\ cache r.1 = ∅ /\
  (LRU_Get key r.1).2 = (None, false).
Proof.
  intros Hmb Hops Hfit st Hover r.
  assert (inv st) as Hinv by (apply inv_run; [by apply inv_New|done]).
  destruct (Set_oversized st key entry Hinv Hfit) as [Hnil Hcache].
  { unfold st. rewrite run_maxBytes, New_maxBytes; done. }
  split; [done|]. split; [done|]. split; [done|].
  unfold LRU_Get, Get_lookup. fold r in Hcache. by rewrite Hcache, lookup_empty.
Qed.

Lemma Set_oversized_not_retained_witness :
  let r := LRU_Set "k" (sample_entry "x" ∅) (NewInMemoryQuotaLRU 0) in
  r.2 = None /\ lru r.1 = [] /\ cache r.1 = ∅ /\
  (LRU_Get "k" r.1).2 = (None, false).
Proof.
  refine (Set_oversized_not_retained 0 [] "k" (sample_entry "x" ∅) _ _ _ _).
  - lia.
  - constructor.
  - vm_compute; reflexivity.
  - vm_compute; reflexivity.
Defined.

(** C10 as stated fails on a store of 0 megabytes: an entry with an
    empty body and no headers has size 0, is not over quota, and is
    retained. *)
Lemma zero_quota_retains_empty_entry :
  let entry := sample_entry "" ∅ in
  ~ (LRU_Get "k" (LRU_Set "k" entry (NewInMemoryQuotaLRU 0)).1).2 = (None, false).
Proof. vm_compute. discriminate. Qed.

(** *** [Get] and concurrent eviction *)

Section GetSections.

Implicit Types (st : InMemoryQuotaLRU) (el : Element).

(** An element stays in the heap, with its key, whatever is called. *)
Lemma step_elems_persist st op el e :
  elems st !! el = Some e ->
  exists e', elems (step st op) !! el = Some e' /\ lruEntry.key e' = lruEntry.key e.
Proof.
  intros Hel. destruct op as [key entry|key|key|el0]; simpl.
  - rewrite evict_elems. unfold Set_insert.
    destruct (cache st !! key) as [el0|].
    + destruct (elems st !! el0) as [old|] eqn:Hold; [|eauto].
      cbn [elems]. destruct (decide (el0 = el)) as [->|Hne].
      * rewrite lookup_insert_eq. eexists. split; [done|]. simpl. congruence.
      * rewrite lookup_insert_ne by done. eauto.
    + cbn [elems]. rewrite lookup_insert_ne; [eauto|].
      intros Heq. pose proof (is_fresh (dom (elems st))) as Hfresh.
      rewrite Heq in Hfresh. apply Hfresh, elem_of_dom. eauto.
  - unfold LRU_Delete. destruct (cache st !! key) as [el0|]; [|eauto].
    destruct (elems st !! el0); eauto.
  - unfold LRU_Get. destruct (Get_lookup key st); eauto.
  - eauto.
Qed.

Lemma run_elems_persist ops st el e :
  elems st !! el = Some e ->
  exists e', elems (run ops st) !! el = Some e' /\ lruEntry.key e' = lruEntry.key e.
Proof.
  revert st e. induction ops as [|op ops IH]; intros st e Hel; [eauto|].
  destruct (step_elems_persist st op el e Hel) as (e1 & Hel1 & Hk1).
  destruct (IH _ _ Hel1) as (e2 & Hel2 & Hk2).
  exists e2. split; [done|]. congruence.
Qed.

End GetSections.

(** C3, as the code has it.  The second section of [Get] does not look
    the key up again.  Once the first section has found an element,
    whatever other calls run in between, [Get] reports a hit and returns
    the entry that element holds; the element is promoted when it is
    still in the list, and the list is left as it is when the element was
    evicted meanwhile. *)
Theorem Get_returns_found_element (maxMB : Z) (ops0 ops : list Op)
    (key : string) (el : Element) :
  - 2 ^ 42 < maxMB < 2 ^ 42 -> Forall op_fits ops0 ->
  let st := run ops0 (NewInMemoryQuotaLRU maxMB) in
  Get_lookup key st = Some el ->
  let r := Get_interleaved key ops st in
  exists e,
    elems (run ops st) !! el = Some e /\ lruEntry.key e = key /\
    r.2 = (Some (lruEntry.value e), true) /\
    lru r.1 = list_MoveToFront el (lru (run ops st)) /\
    (el ∉ lru (run ops st) -> lru r.1 = lru (run ops st)).
Proof.
  intros Hmb Hops st Hlk r.
  assert (inv st) as (Hwf & _ & _) by (apply inv_run; [by apply inv_New|done]).
  apply (wf_index _ Hwf) in Hlk as Hidx. destruct Hidx as [Hin Hkey].
  destruct (elems st !! el) as [e0|] eqn:Hel0; [|done].
  simpl in Hkey. injection Hkey as Hkey.
  destruct (run_elems_persist ops st el e0 Hel0) as (e & Hel & Hk).
  exists e. unfold r, Get_interleaved. rewrite Hlk. simpl. rewrite Hel.
  repeat split; [congruence|].
  intros Hnotin. unfold list_MoveToFront. by rewrite decide_False.
Qed.

Lemma Get_returns_found_element_witness :
  let entry := sample_entry "aaa" ∅ in
  let st := run [OpSet "a" entry] (NewInMemoryQuotaLRU 1) in
  let r := Get_interleaved "a" [OpDelete "a"] st in
  exists e,
    elems (run [OpDelete "a"] st) !! 0%nat = Some e /\ lruEntry.key e = "a" /\
    r.2 = (Some (lruEntry.value e), true) /\
    lru r.1 = list_MoveToFront 0%nat (lru (run [OpDelete "a"] st)) /\
    (0%nat ∉ lru (run [OpDelete "a"] st) -> lru r.1 = lru (run [OpDelete "a"] st)).
Proof.
  refine (Get_returns_found_element 1 [OpSet "a" (sample_entry "aaa" ∅)]
            [OpDelete "a"] "a" 0%nat _ _ _).
  - lia.
  - repeat constructor; vm_compute; reflexivity.
  - vm_compute; reflexivity.
Defined.

(** C3 as stated fails: the key is deleted between the two sections of
    [Get], the index no longer has it, and [Get] still returns the evicted
    entry as a hit. *)
Lemma Get_returns_evicted_entry :
  let entry := sample_entry "aaa" ∅ in
  let st := run [OpSet "a" entry] (NewInMemoryQuotaLRU 1) in
  ~ (Get_lookup "a" st = Some 0%nat ->
     cache (run [OpDelete "a"] st) !! "a" = None ->
     (Get_interleaved "a" [OpDelete "a"] st).2 = (None, false)).
Proof.
  intros entry st Hclaim.
  assert ((Get_interleaved "a" [OpDelete "a"] st).2 = (None, false)) as Hmiss.
  { apply Hclaim; vm_compute; reflexivity. }
  vm_compute in Hmiss. discriminate.
Qed.

(** ** Entries: size and freshness *)

(** C6.  With [age = now - CreatedAt], an entry is fresh (neither stale
    nor rotten) exactly when [age <= TTL], stale but not rotten exactly
    when [TTL < age <= TTL + SWR], and rotten exactly when
    [age > TTL + SWR].  The window [SWR] is a non-negative duration and
    [TTL + SWR] is a duration below the greatest [int64]. *)
Theorem freshness_classes (now : Time) (e : ResponseCacheEntry) :
  Int64.min_int <= TTL e -> 0 <= SWR e -> TTL e + SWR e < Int64.max_int ->
  let age := now - CreatedAt e in
  ((IsStale now e = false /\ IsRotten now e = false) <-> age <= TTL e) /\
  ((IsStale now e = true /\ IsRotten now e = false) <->
     TTL e < age <= TTL e + SWR e) /\
  (IsRotten now e = true <-> age > TTL e + SWR e).
Proof.
  intros Httl Hswr Hsum age. unfold IsStale, IsRotten, time_Since, Time_Sub, Int64.add.
  rewrite wrap64_id by (unfold Int64.in_range; lia).
  fold age. unfold Int64.min_int, Int64.max_int in *.
  destruct (Z.gtb_spec (Z.max (- 2 ^ 63) (Z.min (2 ^ 63 - 1) age)) (TTL e));
    destruct (Z.gtb_spec (Z.max (- 2 ^ 63) (Z.min (2 ^ 63 - 1) age)) (TTL e + SWR e));
    repeat split; intros; try discriminate; try lia;
    repeat match goal with H : _ /\ _ |- _ => destruct H end; try discriminate; lia.
Qed.

Lemma freshness_classes_witness :
  let e := sample_entry "fresh" ∅ in
  IsStale 100 e = false /\ IsRotten 100 e = false /\
  IsStale 1200 e = true /\ IsRotten 1200 e = false /\
  IsRotten 2600 e = true.
Proof.
  intros e.
  assert (Int64.min_int <= TTL e) as H1 by (vm_compute; discriminate).
  assert (0 <= SWR e) as H2 by (vm_compute; discriminate).
  assert (TTL e + SWR e < Int64.max_int) as H3 by (vm_compute; reflexivity).
  pose proof (freshness_classes 100 e H1 H2 H3) as (Hfresh & _ & _).
  pose proof (freshness_classes 1200 e H1 H2 H3) as (_ & Hstale & _).
  pose proof (freshness_classes 2600 e H1 H2 H3) as (_ & _ & Hrotten).
  simpl in Hfresh, Hstale, Hrotten.
  destruct Hfresh as [_ Hfresh]. destruct Hstale as [_ Hstale].
  destruct Hrotten as [_ Hrotten].
  destruct (Hfresh ltac:(lia)) as [? ?].
  destruct (Hstale ltac:(lia)) as [? ?].
  pose proof (Hrotten ltac:(lia)).
  repeat split; assumption.
Defined.

(** C8, as the code has it.  The size of an entry is the length of its
    body plus 30 for every key of its header map: a header name counts
    once, however many values it carries.  The sum is assumed to fit
    [int64]. *)
Theorem Size_counts_header_names (e : ResponseCacheEntry) :
  len (Body e) + 30 * Z.of_nat (size (dom (Headers e))) <= Int64.max_int ->
  Size e = len (Body e) + 30 * Z.of_nat (size (dom (Headers e))).
Proof.
  assert (size (dom (Headers e)) = size (Headers e)) as -> by apply size_dom.
  unfold Size, Int64.add, Int64.mul, len. intros Hfit.
  rewrite (wrap64_id (_ * 30)), wrap64_id;
    unfold Int64.in_range, Int64.min_int, Int64.max_int in *; lia.
Qed.

Lemma Size_counts_header_names_witness :
  let e := sample_entry "body"
             (Header.Add "Set-Cookie" "b" (Header.Add "Set-Cookie" "a" ∅)) in
  Size e = len (Body e) + 30 * Z.of_nat (size (dom (Headers e))).
Proof.
  intros e. apply (Size_counts_header_names e). vm_compute. discriminate.
Defined.

(** C8 as stated fails on a header with two values: the entry has two
    name/value pairs and the size counts 30 once. *)
Lemma Size_not_per_pair :
  let e := sample_entry "" (Header.Add "Set-Cookie" "b" (Header.Add "Set-Cookie" "a" ∅)) in
  Header.pairs (Headers e) = [("Set-Cookie", "a"); ("Set-Cookie", "b")]%string /\
  Size e = 30 /\
  Size e <> len (Body e) + 30 * len (Header.pairs (Headers e)).
Proof. vm_compute. repeat split; discriminate. Qed.

(** ** The response recorder *)

Section RecorderFacts.

Context {W : Type} `{ResponseWriter W}.

Implicit Types (r : ResponseRecorder.t W) (p : bytes) (acts : list Action).

Import ResponseRecorder.

(** [Write] touches the buffer and the over-capacity mark only. *)
Lemma Write_frame p r :
  status (Write p r).1 = status r /\
  header (Write p r).1 = header r /\
  underlying (Write p r).1 = underlying r /\
  maxBytes (Write p r).1 = maxBytes r /\
  written (Write p r).1 = written r.
Proof.
  unfold Write. destruct (maxBytes r <=? 0); [done|].
  destruct (Int64.sub (maxBytes r) (len (body r)) <=? 0); [done|].
  by destruct (len p <=? Int64.sub (maxBytes r) (len (body r))).
Qed.

(** With a positive cap the buffer holds the first [maxBytes] bytes of
    what was written. *)
Lemma Write_body p r :
  0 < maxBytes r <= Int64.max_int -> len (body r) <= maxBytes r ->
  body (Write p r).1 = take (Z.to_nat (maxBytes r)) (body r ++ p).
Proof.
  intros Hcap Hlen. unfold Write.
  destruct (Z.leb_spec (maxBytes r) 0) as [?|_]; [lia|].
  assert (Int64.sub (maxBytes r) (len (body r)) = maxBytes r - len (body r)) as ->.
  { unfold Int64.sub. apply wrap64_id.
    unfold Int64.in_range, Int64.min_int, Int64.max_int, len in *. lia. }
  unfold len in *.
  destruct (Z.leb_spec (maxBytes r - Z.of_nat (length (body r))) 0) as [Hfull|Hroom].
  - simpl. rewrite take_app_le by lia. rewrite take_ge by lia. done.
  - destruct (Z.leb_spec (Z.of_nat (length p))
                (maxBytes r - Z.of_nat (length (body r)))) as [Hfits|Hover].
    + simpl. rewrite take_ge; [done|]. rewrite length_app. lia.
    + simpl. rewrite take_app_ge by lia. f_equal. f_equal. lia.
Qed.

(** Without a cap everything is buffered. *)
Lemma Write_body_nocap p r :
  maxBytes r <= 0 -> body (Write p r).1 = body r ++ p.
Proof.
  intros Hcap. unfold Write.
  destruct (Z.leb_spec (maxBytes r) 0) as [_|?]; [done|lia].
Qed.

Lemma Write_capReached_mono p r :
  capReached r = true -> capReached (Write p r).1 = true.
Proof.
  intros Hcap. unfold Write. destruct (maxBytes r <=? 0); [done|].
  destruct (Int64.sub (maxBytes r) (len (body r)) <=? 0); [done|].
  by destruct (len p <=? Int64.sub (maxBytes r) (len (body r))).
Qed.

(** A write that does not fit marks the recorder. *)
Lemma Write_capReached p r :
  0 < maxBytes r <= Int64.max_int -> len (body r) <= maxBytes r ->
  maxBytes r < len (body r ++ p) ->
  capReached (Write p r).1 = true.
Proof.
  intros Hcap Hlen Hover. unfold Write.
  destruct (Z.leb_spec (maxBytes r) 0) as [?|_]; [lia|].
  assert (Int64.sub (maxBytes r) (len (body r)) = maxBytes r - len (body r)) as ->.
  { unfold Int64.sub. apply wrap64_id.
    unfold Int64.in_range, Int64.min_int, Int64.max_int, len in *. lia. }
  unfold len in *. rewrite length_app in Hover.
  destruct (Z.leb_spec (maxBytes r - Z.of_nat (length (body r))) 0); [done|].
  destruct (Z.leb_spec (Z.of_nat (length p))
              (maxBytes r - Z.of_nat (length (body r)))); [lia|done].
Qed.

Lemma take_take_app {A} (n : nat) (l k : list A) :
  take n (take n l ++ k) = take n (l ++ k).
Proof.
  destruct (decide (n <= length l)%nat) as [Hle|Hgt].
  - rewrite !take_app_le by (rewrite ?length_take; lia).
    rewrite take_take. f_equal. lia.
  - by rewrite (take_ge l) by lia.
Qed.

(** A handler run on a recorder leaves the destination alone. *)
Lemma play_frame acts r :
  underlying (play acts r).1 = underlying r /\
  maxBytes (play acts r).1 = maxBytes r /\
  written (play acts r).1 = written r /\
  (play acts r).2 = panics acts.
Proof.
  revert r. induction acts as [|a acts IH]; intros r; [done|].
  destruct a as [op|statusCode|p|]; cbn [play bytes_written panics]; [| | |done].
  - destruct (IH (rw_Header_apply op r)) as (-> & -> & -> & ->). done.
  - destruct (IH (rw_WriteHeader statusCode r)) as (-> & -> & -> & ->). done.
  - change (rw_Write p r) with (Write p r).
    destruct (IH (Write p r).1) as (-> & -> & -> & ->).
    destruct (Write_frame p r) as (_ & _ & -> & -> & ->). done.
Qed.

Lemma play_body acts r :
  0 < maxBytes r <= Int64.max_int -> len (body r) <= maxBytes r ->
  body (play acts r).1 = take (Z.to_nat (maxBytes r)) (body r ++ bytes_written acts).
Proof.
  revert r. induction acts as [|a acts IH]; intros r Hcap Hlen.
  - simpl. rewrite app_nil_r, take_ge; [done|]. unfold len in Hlen. lia.
  - destruct a as [op|statusCode|p|]; cbn [play bytes_written panics].
    + by rewrite (IH (rw_Header_apply op r)).
    + by rewrite (IH (rw_WriteHeader statusCode r)).
    + change (rw_Write p r) with (Write p r).
      destruct (Write_frame p r) as (_ & _ & _ & Hmax & _).
      pose proof (Write_body p r Hcap Hlen) as Hbody.
      rewrite (IH (Write p r).1); rewrite ?Hmax; [|done|].
      * rewrite Hbody, app_assoc. apply take_take_app.
      * rewrite Hbody. unfold len. rewrite length_take. lia.
    + rewrite app_nil_r, take_ge; [done|]. unfold len in Hlen. lia.
Qed.

Lemma play_body_nocap acts r :
  maxBytes r <= 0 -> body (play acts r).1 = body r ++ bytes_written acts.
Proof.
  revert r. induction acts as [|a acts IH]; intros r Hcap.
  - simpl. by rewrite app_nil_r.
  - destruct a as [op|statusCode|p|]; cbn [play bytes_written panics].
    + by rewrite (IH (rw_Header_apply op r)).
    + by rewrite (IH (rw_WriteHeader statusCode r)).
    + change (rw_Write p r) with (Write p r).
      destruct (Write_frame p r) as (_ & _ & _ & Hmax & _).
      rewrite (IH (Write p r).1) by lia.
      rewrite Write_body_nocap by done. by rewrite app_assoc.
    + by rewrite app_nil_r.
Qed.

Lemma play_capReached_mono acts r :
  capReached r = true -> capReached (play acts r).1 = true.
Proof.
  revert r. induction acts as [|a acts IH]; intros r Hcap; [done|].
  destruct a as [op|statusCode|p|]; cbn [play bytes_written panics]; [| | |done].
  - by apply (IH (rw_Header_apply op r)).
  - by apply (IH (rw_WriteHeader statusCode r)).
  - change (rw_Write p r) with (Write p r). by apply IH, Write_capReached_mono.
Qed.

(** A handler that writes more than the cap leaves the recorder marked
    over capacity. *)
Lemma play_capReached acts r :
  0 < maxBytes r <= Int64.max_int -> len (body r) <= maxBytes r ->
  maxBytes r < len (body r ++ bytes_written acts) ->
  capReached (play acts r).1 = true.
Proof.
  revert r. induction acts as [|a acts IH]; intros r Hcap Hlen Hover.
  - simpl in Hover. rewrite app_nil_r in Hover. lia.
  - destruct a as [op|statusCode|p|]; cbn [play bytes_written panics] in *.
    + by apply (IH (rw_Header_apply op r)).
    + by apply (IH (rw_WriteHeader statusCode r)).
    + change (rw_Write p r) with (Write p r).
      destruct (Write_frame p r) as (_ & _ & _ & Hmax & _).
      destruct (decide (maxBytes r < len (body r ++ p))) as [Hp|Hp].
      * by apply play_capReached_mono, Write_capReached.
      * pose proof (Write_body p r Hcap Hlen) as Hbody.
        rewrite take_ge in Hbody by (unfold len in Hp; lia).
        apply IH; rewrite ?Hmax, ?Hbody; [done|lia|].
        by rewrite <- app_assoc.
    + rewrite app_nil_r in Hover. lia.
Qed.

End RecorderFacts.

Section FlushFacts.

Context {W : Type} `{ResponseWriter W}.

Implicit Types (r : ResponseRecorder.t W) (acts : list Action).

Import ResponseRecorder.

Lemma Flush_written r : written (Flush r) = true.
Proof. unfold Flush. by destruct (written r) eqn:Hw. Qed.

Lemma Flush_idle r : written r = true -> Flush r = r.
Proof. intros Hw. unfold Flush. by rewrite Hw. Qed.

(** A handler that never calls [WriteHeader] leaves the status as it
    was. *)
Lemma play_status acts r :
  forallb (fun a => negb (is_WriteHeader a)) acts = true ->
  status (play acts r).1 = status r.
Proof.
  revert r. induction acts as [|a acts IH]; intros r Hno; [done|].
  simpl in Hno. apply andb_true_iff in Hno as [Ha Hno].
  destruct a as [op|statusCode|p|]; cbn [play]; [|done| |done].
  - by rewrite (IH (rw_Header_apply op r)).
  - change (rw_Write p r) with (Write p r). rewrite IH by done.
    by destruct (Write_frame p r) as (-> & _).
Qed.

End FlushFacts.

Lemma replay_Log (calls : list Call) (l : Log) : replay calls l = l ++ calls.
Proof.
  revert l. induction calls as [|c calls IH]; intros l.
  - by rewrite app_nil_r.
  - unfold replay in *. cbn [foldl]. rewrite IH.
    destruct c; simpl; by rewrite <- app_assoc.
Qed.

(** C7.  The first [Flush] of a recorder delivers to its destination
    the recorded headers, then the status, then the body, in that order;
    every later [Flush] changes nothing; and when the recorder is the one
    a handler wrote to without ever calling [WriteHeader], the status that
    is delivered is 200. *)
Theorem Flush_delivers_once {W : Type} `{ResponseWriter W}
    (r : ResponseRecorder.t W) :
  ResponseRecorder.written r = false ->
  ResponseRecorder.underlying (ResponseRecorder.Flush r)
    = replay
        (map (fun kv => CallHeader (Header.OpAdd kv.1 kv.2))
             (Header.pairs (ResponseRecorder.header r))
         ++ CallWriteHeader (ResponseRecorder.status r)
         :: (if len (ResponseRecorder.body r) >? 0
             then [CallWrite (ResponseRecorder.body r)] else []))
        (ResponseRecorder.underlying r) /\
  (forall n : nat,
     Nat.iter n ResponseRecorder.Flush (ResponseRecorder.Flush r)
     = ResponseRecorder.Flush r) /\
  (forall (responseWriter : W) (maxBodyBytes : Z) (acts : list Action),
     r = (play acts (ResponseRecorder.NewResponseRecorder responseWriter maxBodyBytes)).1 ->
     forallb (fun a => negb (is_WriteHeader a)) acts = true ->
     ResponseRecorder.status r = 200).
Proof.
  intros Hw. split; [|split].
  - unfold ResponseRecorder.Flush, replay. rewrite Hw. cbn [ResponseRecorder.underlying].
    rewrite foldl_app, foldl_fmap. unfold Header.Clone. cbn [foldl].
    by destruct (len (ResponseRecorder.body r) >? 0).
  - induction n as [|n IH]; [done|].
    rewrite Nat.iter_succ, IH. apply Flush_idle, Flush_written.
  - intros responseWriter maxBodyBytes acts -> Hno.
    by rewrite play_status.
Qed.

Lemma Flush_delivers_once_witness :
  let acts := [ActHeader (Header.OpAdd "Content-Type" "text/plain");
               ActWrite (bytes_of_string "fresh")] in
  let r := (play acts (ResponseRecorder.NewResponseRecorder ([] : Log) 1024)).1 in
  ResponseRecorder.underlying (ResponseRecorder.Flush r)
  = [CallHeader (Header.OpAdd "Content-Type" "text/plain");
     CallWriteHeader 200;
     CallWrite (bytes_of_string "fresh")] /\
  ResponseRecorder.Flush (ResponseRecorder.Flush r) = ResponseRecorder.Flush r /\
  ResponseRecorder.status r = 200.
Proof.
  intros acts r.
  destruct (Flush_delivers_once r eq_refl) as (Hfirst & Hlater & Hstatus).
  split; [|split].
  - rewrite Hfirst. vm_compute. reflexivity.
  - apply (Hlater 1%nat).
  - apply (Hstatus [] 1024 acts); reflexivity.
Defined.

(** ** The middleware *)

Section ClientFacts.

Import ResponseRecorder.

Lemma Client_header_fold_Body (l : list (string * string)) (c : Client.t) :
  Client.Body (foldl (fun d kv => rw_Header_apply (Header.OpAdd kv.1 kv.2) d) c l)
  = Client.Body c.
Proof.
  revert c. induction l as [|kv l IH]; intros c; [done|].
  cbn [foldl]. by rewrite IH.
Qed.

Lemma Client_WriteHeader_Body (code : Z) (c : Client.t) :
  Client.Body (Client.WriteHeader code c) = Client.Body c.
Proof. unfold Client.WriteHeader. by destruct (Client.wroteHeader c). Qed.

(** What reaches the client on [Flush] is the buffer of the recorder. *)
Lemma Flush_Client_Body (r : ResponseRecorder.t Client.t) :
  written r = false ->
  Client.Body (underlying (Flush r)) = Client.Body (underlying r) ++ body r.
Proof.
  intros Hw. unfold Flush. rewrite Hw. cbn [underlying].
  destruct (Z.gtb_spec (len (body r)) 0) as [Hpos|Hzero].
  - cbn [rw_Write rw_WriteHeader Client_ResponseWriter]. unfold Client.Write.
    cbn [fst Client.Body]. rewrite !Client_WriteHeader_Body.
    by rewrite Client_header_fold_Body.
  - cbn [rw_WriteHeader Client_ResponseWriter].
    rewrite Client_WriteHeader_Body, Client_header_fold_Body.
    assert (body r = []) as ->; [|by rewrite app_nil_r].
    apply nil_length_inv. unfold len in Hzero. lia.
Qed.

End ClientFacts.

Section MiddlewareFacts.

Context {S : Type} `{Store S}.

Variable cfg : Config.
Variable next : Handler.

Import ResponseRecorder.

(** A capture marked over capacity is not admitted. *)
Lemma capture_entry_over_capacity {V : Type} `{ResponseWriter V}
    (rec : ResponseRecorder.t V) (now : Time) :
  capReached rec = true -> capture_entry cfg rec now = None.
Proof.
  intros Hcap. unfold capture_entry. rewrite Hcap.
  by rewrite andb_false_r.
Qed.

(** On the miss path no [store.Set] is started for such a capture. *)
Lemma serve_miss_over_capacity {W : Type} `{ResponseWriter W}
    (now : Time) (store : S) (responseWriter : W) (request : Request)
    (cacheKey : string) :
  capReached (play (next request)
                (NewResponseRecorder responseWriter (MaxBodyBytes cfg))).1 = true ->
  out_spawned (serve_miss cfg next now store responseWriter request cacheKey) = [].
Proof.
  intros Hcap. unfold serve_miss, ServeHTTP.
  destruct (play (next request) _) as [rec panicked] eqn:Hplay.
  simpl in Hcap. destruct panicked; [done|].
  by rewrite capture_entry_over_capacity.
Qed.

(** Nor by the background refresh. *)
Lemma refresh_over_capacity (now : Time) (cacheKey : string) (req : Request) :
  capReached (play (next req)
                (NewResponseRecorder (discardResponseWriter.mk ∅)
                   (MaxBodyBytes cfg))).1 = true ->
  refresh cfg next now cacheKey req = None.
Proof.
  intros Hcap. unfold refresh, ServeHTTP.
  destruct (play (next req) _) as [rec panicked] eqn:Hplay.
  simpl in Hcap. destruct panicked; [done|].
  by rewrite capture_entry_over_capacity.
Qed.

(** With a positive cap, what the client receives on the miss path is
    the first [MaxBodyBytes] bytes of what the handler wrote. *)
Lemma serve_miss_Client_Body (now : Time) (store : S) (responseWriter : Client.t)
    (request : Request) (cacheKey : string) :
  0 < MaxBodyBytes cfg <= Int64.max_int ->
  panics (next request) = false ->
  Client.Body (out_writer (serve_miss cfg next now store responseWriter request cacheKey))
  = Client.Body responseWriter
    ++ take (Z.to_nat (MaxBodyBytes cfg)) (bytes_written (next request)).
Proof.
  intros Hcap Hpanic. unfold serve_miss, ServeHTTP.
  set (rec0 := NewResponseRecorder responseWriter (MaxBodyBytes cfg)).
  pose proof (play_frame (next request) rec0) as (Hund & _ & Hw & Hp).
  pose proof (play_body (next request) rec0 Hcap) as Hbody.
  destruct (play (next request) rec0) as [rec panicked].
  cbn [fst snd] in Hund, Hw, Hp, Hbody. rewrite Hpanic in Hp. subst panicked.
  cbv beta iota. cbn [out_writer].
  rewrite Flush_Client_Body by done.
  rewrite Hund, Hbody; [done|]. unfold len. simpl. lia.
Qed.

(** The two ways into the miss path: after a lookup that found nothing
    the diagnostic header is set; after a lookup that found a rotten entry
    the writer is left as it was. *)
Lemma middleware_clean_miss {W : Type} `{ResponseWriter W}
    (now : Time) (store store' : S) (responseWriter : W) (request : Request) :
  Method request = "GET"%string \/ Method request = "HEAD"%string ->
  KeyGenerator cfg request <> ""%string ->
  Store_Get (KeyGenerator cfg request) store = (store', (None, false)) ->
  NewCacheMiddleware cfg next now store responseWriter request
  = serve_miss cfg next now store'
      (rw_Header_apply (Header.OpSet "X-Cache-Status" "MISS") responseWriter)
      request (KeyGenerator cfg request).
Proof.
  intros Hmethod Hkey Hget. unfold NewCacheMiddleware.
  assert (negb (Method request =? "GET")%string
          && negb (Method request =? "HEAD")%string = false) as ->.
  { destruct Hmethod as [-> | ->]; done. }
  apply String.eqb_neq in Hkey. rewrite Hkey, Hget. done.
Qed.

Lemma middleware_rotten {W : Type} `{ResponseWriter W}
    (now : Time) (store store' : S) (responseWriter : W) (request : Request)
    (entry : ResponseCacheEntry) :
  Method request = "GET"%string \/ Method request = "HEAD"%string ->
  KeyGenerator cfg request <> ""%string ->
  Store_Get (KeyGenerator cfg request) store = (store', (Some entry, true)) ->
  IsRotten now entry = true ->
  NewCacheMiddleware cfg next now store responseWriter request
  = serve_miss cfg next now store' responseWriter request (KeyGenerator cfg request).
Proof.
  intros Hmethod Hkey Hget Hrotten. unfold NewCacheMiddleware.
  assert (negb (Method request =? "GET")%string
          && negb (Method request =? "HEAD")%string = false) as ->.
  { destruct Hmethod as [-> | ->]; done. }
  apply String.eqb_neq in Hkey. rewrite Hkey, Hget.
  unfold servable. rewrite Hrotten. done.
Qed.

End MiddlewareFacts.

(** C1 on the code.  The cap is 4 bytes and the handler writes the 5
    bytes of "hello" on the miss path: the client receives "hell", the
    first 4 bytes, not every byte the handler wrote. *)
Theorem oversized_body_is_truncated_for_client :
  let out := NewCacheMiddleware (sample_config 4) (sample_handler "hello") 0
               (NewInMemoryQuotaLRU 2) Client.NewRecorder sample_request in
  bytes_written (sample_handler "hello" sample_request) = bytes_of_string "hello" /\
  Client.HeaderMap (out_writer out) !! "X-Cache-Status"%string = Some ["MISS"%string] /\
  Client.Body (out_writer out) = bytes_of_string "hell" /\
  out_spawned out = [].
Proof. vm_compute. done. Qed.

(** C2 on the code.  The same request is served from an empty store and
    from a store whose entry for the key is rotten (created at 0, TTL
    1000, SWR 1500, looked up at 2600).  Both run the handler; the first
    response carries [X-Cache-Status: MISS], the second carries no
    [X-Cache-Status] header at all. *)
Theorem rotten_lookup_sets_no_cache_status :
  let store :=
    (LRU_Set "cache:GET:/" (sample_entry "old" ∅) (NewInMemoryQuotaLRU 2)).1 in
  let clean := NewCacheMiddleware (sample_config 1024) (sample_handler "fresh") 2600
                 (NewInMemoryQuotaLRU 2) Client.NewRecorder sample_request in
  let rotten := NewCacheMiddleware (sample_config 1024) (sample_handler "fresh") 2600
                  store Client.NewRecorder sample_request in
  (LRU_Get "cache:GET:/" store).2 = (Some (sample_entry "old" ∅), true) /\
  IsRotten 2600 (sample_entry "old" ∅) = true /\
  Client.HeaderMap (out_writer clean) !! "X-Cache-Status"%string = Some ["MISS"%string] /\
  Client.Body (out_writer clean) = bytes_of_string "fresh" /\
  Client.HeaderMap (out_writer rotten) !! "X-Cache-Status"%string = None /\
  Client.Body (out_writer rotten) = bytes_of_string "fresh".
Proof. vm_compute. done. Qed.

(** C5 on the code.  The cap is 4 bytes and the buffer is empty: a
    [Write] of the 5 bytes of "hello" buffers 4 of them, marks the
    recorder, and reports 4 bytes written with a [nil] error, not the 5
    it was given. *)
Theorem partial_Write_reports_short_count :
  let r := ResponseRecorder.NewResponseRecorder Client.NewRecorder 4 in
  let p := bytes_of_string "hello" in
  len p = 5 /\
  (ResponseRecorder.Write p r).2 = (4, None) /\
  ResponseRecorder.body (ResponseRecorder.Write p r).1 = bytes_of_string "hell" /\
  ResponseRecorder.capReached (ResponseRecorder.Write p r).1 = true.
Proof. vm_compute. done. Qed.

(** ** The header sanitizer *)

Section StripHopByHop.

Implicit Types (h header : Header.t) (k : string).

Lemma foldl_Del_lookup_in (ks : list string) h k :
  k ∈ map Header.CanonicalMIMEHeaderKey ks ->
  foldl (fun h k => Header.Del k h) h ks !! k = None.
Proof.
  unfold Header.Del, Header.t in *.
  revert h. induction ks as [|k0 ks IH] using rev_ind; intros h Hin.
  - by apply elem_of_nil in Hin.
  - rewrite foldl_snoc. rewrite map_app in Hin. apply elem_of_app in Hin as [Hin|Hin].
    + destruct (decide (k = Header.CanonicalMIMEHeaderKey k0)) as [->|Hne].
      * apply lookup_delete_eq.
      * rewrite lookup_delete_ne by done. by apply IH.
    + apply list_elem_of_singleton in Hin as ->. apply lookup_delete_eq.
Qed.

Lemma foldl_Del_lookup_notin (ks : list string) h k :
  k ∉ map Header.CanonicalMIMEHeaderKey ks ->
  foldl (fun h k => Header.Del k h) h ks !! k = h !! k.
Proof.
  unfold Header.Del, Header.t in *.
  revert h. induction ks as [|k0 ks IH]; intros h Hnotin; [done|].
  cbn [foldl map] in *. apply not_elem_of_cons in Hnotin as [Hne Hnotin].
  rewrite IH by done. by apply lookup_delete_ne.
Qed.

Lemma foldl_Del_lookup (ks : list string) h k :
  foldl (fun h k => Header.Del k h) h ks !! k
  = if decide (k ∈ map Header.CanonicalMIMEHeaderKey ks) then None else h !! k.
Proof.
  case_decide; [by apply foldl_Del_lookup_in|by apply foldl_Del_lookup_notin].
Qed.

Lemma foldl_tokens_Del (tokens : list string) h :
  foldl (fun h token =>
           let token := strings_TrimSpace token in
           if String.eqb token "" then h else Header.Del token h) h tokens
  = foldl (fun h k => Header.Del k h) h
      (filter (fun token => token ≠ EmptyString) (map strings_TrimSpace tokens)).
Proof.
  revert h. induction tokens as [|token tokens IH]; intros h; [done|].
  cbn [foldl map]. destruct (String.eqb_spec (strings_TrimSpace token) "") as [Heq|Hne].
  - rewrite filter_cons_False by (rewrite Heq; tauto). apply IH.
  - rewrite filter_cons_True by done. cbn [foldl]. apply IH.
Qed.

(** What the sanitizer does: it deletes the nine connection headers and
    the names listed in the first [Connection] value, each under its
    canonical spelling, and leaves every other key with its values. *)
Lemma stripHopByHop_lookup header k :
  stripHopByHop header !! k
  = if decide (k ∈ map Header.CanonicalMIMEHeaderKey
                     (hopByHopHeaders ++ connection_tokens header))
    then None else header !! k.
Proof.
  unfold stripHopByHop, connection_tokens, Header.Clone.
  destruct (String.eqb_spec (Header.Get "Connection" header) "") as [Heq|Hne].
  - rewrite Heq. cbn [strings_Split map].
    rewrite filter_cons_False by (vm_compute; tauto).
    rewrite filter_nil, app_nil_r. apply foldl_Del_lookup.
  - rewrite foldl_tokens_Del, <- foldl_app. apply foldl_Del_lookup.
Qed.

End StripHopByHop.

(** C9 on the code.  The input carries two [Connection] values, "close"
    and "X-Secret", and a header [X-Secret].  Only the first value is
    read: [X-Secret], which the second value lists, is still present in
    the output. *)
Theorem stripHopByHop_reads_first_Connection_value_only :
  let header :=
    Header.Add "X-Secret" "1"
      (Header.Add "Connection" "X-Secret"
         (Header.Add "Connection" "close"
            (Header.Add "Content-Type" "text/plain" ∅))) in
  header !! "Connection"%string = Some ["close"; "X-Secret"]%string /\
  Header.Get "Connection" header = "close"%string /\
  stripHopByHop header !! "Connection"%string = None /\
  stripHopByHop header !! "X-Secret"%string = Some ["1"%string].
Proof. vm_compute. done. Qed.

(** ** The repository's test

    [TestCacheMiddleware]: a store of 2 megabytes, TTL 1 s, SWR 1.5 s, a
    cap of 1024 bytes and a handler that answers 200 "fresh".  The first
    request is a miss; once the asynchronous [Set] has run, the second is
    a fresh hit with the same body.  Later the entry is served stale and
    a refresh is started, and past TTL + SWR the handler runs again. *)

Example TestCacheMiddleware :
  let cfg := sample_config 1024 in
  let next := sample_handler "fresh" in
  let r1 := NewCacheMiddleware cfg next 0 (NewInMemoryQuotaLRU 2)
              Client.NewRecorder sample_request in
  let cache := foldl (fun s g => run_spawned cfg next 0 g s)
                 (out_store r1) (out_spawned r1) in
  let r2 := NewCacheMiddleware cfg next 10 cache Client.NewRecorder sample_request in
  let r3 := NewCacheMiddleware cfg next 1200 cache Client.NewRecorder sample_request in
  let r4 := NewCacheMiddleware cfg next 2600 cache Client.NewRecorder sample_request in
  Header.Get "X-Cache-Status" (Client.HeaderMap (out_writer r1)) = "MISS"%string /\
  Client.Body (out_writer r1) = bytes_of_string "fresh" /\
  Header.Get "X-Cache-Status" (Client.HeaderMap (out_writer r2)) = "HIT"%string /\
  Header.Get "X-Cache-Stale" (Client.HeaderMap (out_writer r2)) = "NO"%string /\
  Client.Body (out_writer r2) = bytes_of_string "fresh" /\
  Header.Get "X-Cache-Stale" (Client.HeaderMap (out_writer r3)) = "YES"%string /\
  out_spawned r3 = [GoRefresh "cache:GET:/" sample_request] /\
  Client.Body (out_writer r4) = bytes_of_string "fresh" /\
  length (out_spawned r4) = 1%nat.
Proof. vm_compute. done. Qed.

(** * Further properties of the code *)

(** ** The store: lookups after writes *)

Section StoreLookups.

Implicit Types (st : InMemoryQuotaLRU) (el : Element).

(** The first half of [Set] leaves the written key indexed, at the front
    of the list. *)
Lemma Set_insert_front_key st key entry :
  wf st ->
  exists el rest,
    lru (Set_insert key entry st) = el :: rest /\
    elems (Set_insert key entry st) !! el = Some (lruEntry.mk key (Size entry) entry).
Proof.
  intros Hwf. unfold Set_insert.
  destruct (cache st !! key) as [el|] eqn:Hlk.
  - apply (wf_index _ Hwf) in Hlk as [Hin Hkey].
    destruct (elems st !! el) as [old|] eqn:Hold; [|done].
    simpl in Hkey. injection Hkey as Hkey.
    exists el, (list_Remove el (lru st)).
    cbn [lru elems]. unfold list_MoveToFront. rewrite decide_True by done.
    by rewrite lookup_insert_eq, Hkey.
  - eexists _, _. cbn [lru elems]. unfold list_PushFront.
    split; [done|]. by rewrite lookup_insert_eq.
Qed.

(** The loop does not turn when the total is within quota. *)
Lemma evict_within_quota fuel st :
  currentBytes st <= maxBytes st -> evict fuel st = st.
Proof.
  intros Hle. destruct fuel as [|fuel]; [done|]. simpl.
  destruct (Z.gtb_spec (currentBytes st) (maxBytes st)); [lia|done].
Qed.

(** What a lookup returns is read off the index and the heap. *)
Lemma LRU_Get_result key st :
  (LRU_Get key st).2
  = match cache st !! key with
    | Some el => (lruEntry.value <$> elems st !! el, true)
    | None => (None, false)
    end.
Proof. unfold LRU_Get, Get_lookup. by destruct (cache st !! key). Qed.

Lemma Set_then_Get_inv st key entry :
  inv st -> entry_fits entry -> Size entry <= maxBytes st ->
  (LRU_Get key (LRU_Set key entry st).1).2 = (Some entry, true).
Proof.
  intros Hinv Hfit Hroom.
  pose proof (inv_Set _ key entry Hinv Hfit) as (Hwf2 & _ & _).
  pose proof (inv_currentBytes _ Hinv) as Hcb.
  destruct Hinv as (Hwf & Hq & Hmax).
  assert (wf (Set_insert key entry st)) as Hwf1 by (apply wf_Set_insert; [done..|lia]).
  destruct (Set_insert_front_key st key entry Hwf) as (el & rest & Hfront & Hel).
  destruct (evict_spec (length (lru (Set_insert key entry st))) _ Hwf1 ltac:(lia))
    as (n & Hn & Htake & _ & Hmin).
  unfold LRU_Set in *. cbn [fst] in *.
  set (st1 := Set_insert key entry st) in *.
  set (st2 := evict (length (lru st1)) st1) in *.
  assert (n <> 0%nat) as Hn0.
  { intros ->.
    assert (0 < 1 <= length (lru st1))%nat as H1 by (rewrite Hfront; simpl; lia).
    specialize (Hmin 1%nat H1).
    rewrite (wf_bytes _ Hwf1), Hfront in Hmin.
    change (drop 1 (el :: rest)) with rest in Hmin.
    rewrite total_size_cons, Hel in Hmin. cbn [from_option lruEntry.size] in Hmin.
    unfold st1 in Hmin at 3. rewrite Set_insert_maxBytes in Hmin. lia. }
  assert (el ∈ lru st2) as Hin.
  { rewrite Htake, Hfront. destruct n; [done|]. simpl. by left. }
  assert (elems st2 !! el = Some (lruEntry.mk key (Size entry) entry)) as Hel2.
  { unfold st2. by rewrite evict_elems. }
  assert (cache st2 !! key = Some el) as Hlk.
  { apply (wf_index _ Hwf2). split; [done|]. by rewrite Hel2. }
  by rewrite LRU_Get_result, Hlk, Hel2.
Qed.

Lemma Delete_then_Get_wf st key :
  wf st ->
  (LRU_Delete key st).2 = None /\
  cache (LRU_Delete key st).1 !! key = None /\
  (forall k, k <> key -> cache (LRU_Delete key st).1 !! k = cache st !! k) /\
  elems (LRU_Delete key st).1 = elems st /\
  currentBytes (LRU_Delete key st).1 <= currentBytes st.
Proof.
  intros Hwf. unfold LRU_Delete.
  destruct (cache st !! key) as [el|] eqn:Hlk; [|by repeat split].
  apply (wf_index _ Hwf) in Hlk as Hidx. destruct Hidx as [Hin Hkey].
  destruct (elems st !! el) as [e|] eqn:Hel; [|done].
  simpl in Hkey. injection Hkey as Hkey.
  split; [done|]. cbn [fst]. split; [|split; [|split]].
  - simpl. rewrite Hkey. apply lookup_delete_eq.
  - intros k Hne. simpl. rewrite Hkey. by apply lookup_delete_ne.
  - done.
  - rewrite evict_one_bytes by done.
    pose proof (wf_size_le _ _ _ Hwf Hin Hel). lia.
Qed.

End StoreLookups.

(** X1.  Insert then look up: on a store reached by any sequence of
    calls, a [Set] of an entry whose size is within the quota is followed
    by a [Get] of the key that finds exactly that entry. *)
Theorem Set_then_Get (maxMB : Z) (ops : list Op) (key : string)
    (entry : ResponseCacheEntry) :
  - 2 ^ 42 < maxMB < 2 ^ 42 -> Forall op_fits ops -> entry_fits entry ->
  Size entry <= maxMB * 1048576 ->
  let st := run ops (NewInMemoryQuotaLRU maxMB) in
  (LRU_Get key (LRU_Set key entry st).1).2 = (Some entry, true).
Proof.
  intros Hmb Hops Hfit Hroom st.
  apply Set_then_Get_inv; [apply inv_run; [by apply inv_New|done]|done|].
  unfold st. by rewrite run_maxBytes, New_maxBytes.
Qed.

Lemma Set_then_Get_witness :
  let st := run [OpSet "a" (sample_entry "aaa" ∅)] (NewInMemoryQuotaLRU 1) in
  (LRU_Get "a" (LRU_Set "a" (sample_entry "bbbb" ∅) st).1).2
  = (Some (sample_entry "bbbb" ∅), true).
Proof.
  refine (Set_then_Get 1 [OpSet "a" (sample_entry "aaa" ∅)] "a"
            (sample_entry "bbbb" ∅) _ _ _ _).
  - lia.
  - repeat constructor; vm_compute; reflexivity.
  - vm_compute; reflexivity.
  - vm_compute; discriminate.
Defined.

(** X2.  [Delete] returns no error; after it a [Get] of the key reports
    not found, a [Get] of any other key returns what it returned before,
    and the running total has not grown. *)
Theorem Delete_then_Get (maxMB : Z) (ops : list Op) (key : string) :
  - 2 ^ 42 < maxMB < 2 ^ 42 -> Forall op_fits ops ->
  let st := run ops (NewInMemoryQuotaLRU maxMB) in
  let r := LRU_Delete key st in
  r.2 = None /\
  (LRU_Get key r.1).2 = (None, false) /\
  (forall k, k <> key -> (LRU_Get k r.1).2 = (LRU_Get k st).2) /\
  currentBytes r.1 <= currentBytes st.
Proof.
  intros Hmb Hops st r.
  assert (inv st) as (Hwf & _ & _) by (apply inv_run; [by apply inv_New|done]).
  destruct (Delete_then_Get_wf st key Hwf) as (Herr & Hgone & Hother & Helems & Hbytes).
  fold r in Herr, Hgone, Hother, Helems, Hbytes.
  split; [done|]. split; [|split; [|done]].
  - by rewrite LRU_Get_result, Hgone.
  - intros k Hne. by rewrite !LRU_Get_result, Hother, Helems.
Qed.

Lemma Delete_then_Get_witness :
  let st := run [OpSet "a" (sample_entry "aaa" ∅); OpSet "b" (sample_entry "bb" ∅)]
              (NewInMemoryQuotaLRU 1) in
  let r := LRU_Delete "a" st in
  r.2 = None /\
  (LRU_Get "a" r.1).2 = (None, false) /\
  (LRU_Get "b" r.1).2 = (LRU_Get "b" st).2 /\
  currentBytes r.1 <= currentBytes st.
Proof.
  intros st r.
  destruct (Delete_then_Get 1
              [OpSet "a" (sample_entry "aaa" ∅); OpSet "b" (sample_entry "bb" ∅)] "a")
    as (H1 & H2 & H3 & H4).
  - lia.
  - repeat constructor; vm_compute; reflexivity.
  - split; [exact H1|]. split; [exact H2|]. split; [apply H3; discriminate|exact H4].
Defined.

(** X3.  [Delete] is idempotent: deleting a key a second time changes
    nothing and still returns no error. *)
Theorem Delete_idempotent (maxMB : Z) (ops : list Op) (key : string) :
  - 2 ^ 42 < maxMB < 2 ^ 42 -> Forall op_fits ops ->
  let st := run ops (NewInMemoryQuotaLRU maxMB) in
  LRU_Delete key (LRU_Delete key st).1 = LRU_Delete key st.
Proof.
  intros Hmb Hops st.
  assert (inv st) as (Hwf & _ & _) by (apply inv_run; [by apply inv_New|done]).
  destruct (Delete_then_Get_wf st key Hwf) as (Herr & Hgone & _).
  unfold LRU_Delete at 1. rewrite Hgone.
  destruct (LRU_Delete key st) as [st' err]. simpl in Herr. by subst err.
Qed.

Lemma Delete_idempotent_witness :
  let st := run [OpSet "a" (sample_entry "aaa" ∅)] (NewInMemoryQuotaLRU 1) in
  LRU_Delete "a" (LRU_Delete "a" st).1 = LRU_Delete "a" st.
Proof.
  refine (Delete_idempotent 1 [OpSet "a" (sample_entry "aaa" ∅)] "a" _ _).
  - lia.
  - repeat constructor; vm_compute; reflexivity.
Defined.

(** ** The store: recency *)

Section StoreRecency.

Implicit Types (st : InMemoryQuotaLRU) (el : Element) (l : list Element).

Lemma list_Remove_idem el l : list_Remove el (list_Remove el l) = list_Remove el l.
Proof.
  apply list_Remove_notin. rewrite elem_of_list_Remove. tauto.
Qed.

Lemma list_MoveToFront_idem el l :
  list_MoveToFront el (list_MoveToFront el l) = list_MoveToFront el l.
Proof.
  unfold list_MoveToFront. destruct (decide (el ∈ l)) as [Hin|Hnotin].
  - rewrite decide_True by left. f_equal.
    unfold list_Remove at 1. rewrite filter_cons_False by tauto.
    apply list_Remove_idem.
  - by rewrite decide_False.
Qed.

Lemma list_MoveToFront_Permutation el l :
  NoDup l -> list_MoveToFront el l ≡ₚ l.
Proof.
  intros Hnd. apply NoDup_Permutation; [by apply NoDup_list_MoveToFront|done|].
  intros x. apply elem_of_list_MoveToFront.
Qed.

(** Keys other than the written one keep their element and its
    contents through the first half of [Set]. *)
Lemma Set_insert_other st key entry k :
  wf st -> k <> key ->
  cache (Set_insert key entry st) !! k = cache st !! k /\
  forall el, cache st !! k = Some el ->
    elems (Set_insert key entry st) !! el = elems st !! el.
Proof.
  intros Hwf Hne. unfold Set_insert.
  destruct (cache st !! key) as [el0|] eqn:Hlk.
  - apply (wf_index _ Hwf) in Hlk as [Hin0 Hkey0].
    destruct (elems st !! el0) as [old|] eqn:Hold; [|done].
    cbn [cache elems]. split; [done|]. intros el Hel.
    apply (wf_index _ Hwf) in Hel as [Hin Hkey].
    rewrite lookup_insert_ne; [done|].
    intros ->. rewrite Hold in Hkey. simpl in *. congruence.
  - cbn [cache elems]. split; [by rewrite lookup_insert_ne|].
    intros el Hel. apply (wf_index _ Hwf) in Hel as [Hin _].
    destruct (wf_live _ Hwf el Hin) as [e He].
    rewrite lookup_insert_ne; [done|].
    intros Heq. pose proof (is_fresh (dom (elems st))) as Hfresh.
    rewrite Heq in Hfresh. apply Hfresh, elem_of_dom. eauto.
Qed.

(** After the first half of a [Set] of another key, the element that
    was at the front is second. *)
Lemma Set_insert_second st key entry el rest k :
  wf st -> lru st = el :: rest ->
  lruEntry.key <$> elems st !! el = Some k -> k <> key ->
  exists x rest',
    lru (Set_insert key entry st) = x :: el :: rest' /\
    lruEntry.key <$> elems (Set_insert key entry st) !! el = Some k.
Proof.
  intros Hwf Hfront Hk Hne. unfold Set_insert.
  destruct (cache st !! key) as [el0|] eqn:Hlk.
  - apply (wf_index _ Hwf) in Hlk as [Hin0 Hkey0].
    destruct (elems st !! el0) as [old|] eqn:Hold; [|done].
    assert (el0 <> el) as Hneq.
    { intros ->. rewrite Hold in Hk. simpl in *. congruence. }
    exists el0, (list_Remove el0 rest). cbn [lru elems].
    unfold list_MoveToFront. rewrite decide_True by done.
    rewrite Hfront. unfold list_Remove at 1. rewrite filter_cons_True by congruence.
    split; [done|]. by rewrite lookup_insert_ne.
  - exists (fresh (dom (elems st))), rest. cbn [lru elems].
    unfold list_PushFront. rewrite Hfront. split; [done|].
    rewrite lookup_insert_ne; [done|].
    intros Heq. pose proof (is_fresh (dom (elems st))) as Hfresh.
    rewrite Heq in Hfresh. apply Hfresh, elem_of_dom.
    destruct (elems st !! el); [eauto|done].
Qed.

(** The index and the list hold the same elements, once each. *)
Lemma wf_cache_size st : wf st -> size (cache st) = length (lru st).
Proof.
  intros Hwf. rewrite <- length_map_to_list.
  rewrite <- (length_fmap snd).
  apply Permutation_length, NoDup_Permutation.
  - apply NoDup_fmap_2_strong; [|apply NoDup_map_to_list].
    intros [k1 el1] [k2 el2] Hin1 Hin2 Heq. simpl in Heq. subst el2.
    apply elem_of_map_to_list in Hin1, Hin2.
    apply (wf_index _ Hwf) in Hin1 as [_ Hk1], Hin2 as [_ Hk2].
    f_equal. congruence.
  - apply Hwf.
  - intros el. rewrite list_elem_of_fmap. split.
    + intros ([k el'] & -> & Hin). apply elem_of_map_to_list in Hin.
      by apply (wf_index _ Hwf) in Hin as [Hin _].
    + intros Hin. destruct (wf_live _ Hwf el Hin) as [e He].
      exists (lruEntry.key e, el). split; [done|].
      apply elem_of_map_to_list, (wf_index _ Hwf). by rewrite He.
Qed.

End StoreRecency.

(** X4.  A [Get] never changes what the store holds: index, elements and
    running total stay, every later [Get] returns what it would have
    returned, and a [Get] repeated at once leaves the store as the first
    one left it. *)
Theorem Get_keeps_contents (st : InMemoryQuotaLRU) (key : string) :
  cache (LRU_Get key st).1 = cache st /\
  elems (LRU_Get key st).1 = elems st /\
  currentBytes (LRU_Get key st).1 = currentBytes st /\
  (forall k, (LRU_Get k (LRU_Get key st).1).2 = (LRU_Get k st).2) /\
  LRU_Get key (LRU_Get key st).1 = LRU_Get key st.
Proof.
  assert (cache (LRU_Get key st).1 = cache st) as Hcache.
  { unfold LRU_Get. by destruct (Get_lookup key st). }
  assert (elems (LRU_Get key st).1 = elems st) as Helems.
  { unfold LRU_Get. by destruct (Get_lookup key st). }
  split; [done|]. split; [done|]. split.
  { unfold LRU_Get. by destruct (Get_lookup key st). }
  split.
  { intros k. by rewrite !LRU_Get_result, Hcache, Helems. }
  unfold LRU_Get at 1. unfold Get_lookup. rewrite Hcache.
  unfold LRU_Get, Get_lookup.
  destruct (cache st !! key) as [el|] eqn:Hlk; [|done].
  unfold Get_promote. cbn [fst lru elems cache maxBytes currentBytes].
  by rewrite list_MoveToFront_idem.
Qed.

(** X5.  A [Get] that finds its key moves the key's element to the
    front of the recency list and keeps every other element, in the
    order they had. *)
Theorem Get_hit_promotes (maxMB : Z) (ops : list Op) (key : string) :
  - 2 ^ 42 < maxMB < 2 ^ 42 -> Forall op_fits ops ->
  let st := run ops (NewInMemoryQuotaLRU maxMB) in
  (LRU_Get key st).2.2 = true ->
  exists el,
    cache st !! key = Some el /\
    lru (LRU_Get key st).1 = el :: list_Remove el (lru st) /\
    lru (LRU_Get key st).1 ≡ₚ lru st.
Proof.
  intros Hmb Hops st Hhit.
  assert (inv st) as (Hwf & _ & _) by (apply inv_run; [by apply inv_New|done]).
  rewrite LRU_Get_result in Hhit. unfold LRU_Get, Get_lookup.
  destruct (cache st !! key) as [el|] eqn:Hlk; [|done].
  apply (wf_index _ Hwf) in Hlk as [Hin _].
  exists el. split; [done|]. cbn [fst lru Get_promote]. split.
  - unfold list_MoveToFront. by rewrite decide_True.
  - apply list_MoveToFront_Permutation, Hwf.
Qed.

Lemma Get_hit_promotes_witness :
  let st := run [OpSet "a" (sample_entry "aaa" ∅); OpSet "b" (sample_entry "bb" ∅)]
              (NewInMemoryQuotaLRU 1) in
  exists el,
    cache st !! "a"%string = Some el /\
    lru (LRU_Get "a" st).1 = el :: list_Remove el (lru st) /\
    lru (LRU_Get "a" st).1 ≡ₚ lru st.
Proof.
  refine (Get_hit_promotes 1
            [OpSet "a" (sample_entry "aaa" ∅); OpSet "b" (sample_entry "bb" ∅)]
            "a" _ _ _).
  - lia.
  - repeat constructor; vm_compute; reflexivity.
  - vm_compute; reflexivity.
Defined.

(** X6.  A [Set] evicts nothing when there is room: if the running
    total plus the size of the new entry is within the quota, every other
    key is found after the [Set] exactly as before. *)
Theorem Set_keeps_others_when_room (maxMB : Z) (ops : list Op) (key : string)
    (entry : ResponseCacheEntry) :
  - 2 ^ 42 < maxMB < 2 ^ 42 -> Forall op_fits ops -> entry_fits entry ->
  let st := run ops (NewInMemoryQuotaLRU maxMB) in
  currentBytes st + Size entry <= maxMB * 1048576 ->
  forall k, k <> key -> (LRU_Get k (LRU_Set key entry st).1).2 = (LRU_Get k st).2.
Proof.
  intros Hmb Hops Hfit st Hroom k Hne.
  assert (inv st) as Hinv by (apply inv_run; [by apply inv_New|done]).
  pose proof (inv_currentBytes _ Hinv) as Hcb.
  destruct Hinv as (Hwf & _ & _).
  assert (maxBytes st = maxMB * 1048576) as Hmax.
  { unfold st. by rewrite run_maxBytes, New_maxBytes. }
  assert (wf (Set_insert key entry st)) as Hwf1 by (apply wf_Set_insert; [done..|lia]).
  destruct (Size_fits _ Hfit) as [_ Hsz].
  assert (currentBytes (Set_insert key entry st) <= maxBytes (Set_insert key entry st))
    as Hle.
  { rewrite Set_insert_maxBytes, Hmax. unfold Set_insert.
    destruct (cache st !! key) as [el0|] eqn:Hlk.
    - apply (wf_index _ Hwf) in Hlk as [Hin0 _].
      destruct (elems st !! el0) as [old|] eqn:Hold; [|lia].
      pose proof (wf_size_le _ _ _ Hwf Hin0 Hold).
      cbn [currentBytes]. unfold Int64.add, Int64.sub.
      rewrite (wrap64_id (_ - _)), wrap64_id;
        unfold Int64.in_range, Int64.min_int, Int64.max_int; lia.
    - cbn [currentBytes]. unfold Int64.add.
      rewrite wrap64_id; unfold Int64.in_range, Int64.min_int, Int64.max_int; lia. }
  unfold LRU_Set. cbn [fst]. rewrite evict_within_quota by done.
  destruct (Set_insert_other st key entry k Hwf Hne) as [Hcache Helems].
  rewrite !LRU_Get_result, Hcache.
  destruct (cache st !! k) as [el|] eqn:Hlk; [|done].
  by rewrite (Helems el).
Qed.

Lemma Set_keeps_others_when_room_witness :
  let st := run [OpSet "a" (sample_entry "aaa" ∅)] (NewInMemoryQuotaLRU 1) in
  (LRU_Get "a" (LRU_Set "b" (sample_entry "bb" ∅) st).1).2 = (LRU_Get "a" st).2.
Proof.
  refine (Set_keeps_others_when_room 1 [OpSet "a" (sample_entry "aaa" ∅)] "b"
            (sample_entry "bb" ∅) _ _ _ _ "a" _).
  - lia.
  - repeat constructor; vm_compute; reflexivity.
  - vm_compute; reflexivity.
  - vm_compute; discriminate.
  - discriminate.
Defined.

(** X7.  The entry read last is evicted last: when a [Get] finds a key
    and the next call is a [Set] of another key, the key that was read is
    lost only if that [Set] leaves at most one entry in the store. *)
Theorem most_recent_evicted_last (maxMB : Z) (ops : list Op) (key key' : string)
    (entry : ResponseCacheEntry) :
  - 2 ^ 42 < maxMB < 2 ^ 42 -> Forall op_fits ops -> entry_fits entry ->
  let st := run ops (NewInMemoryQuotaLRU maxMB) in
  (LRU_Get key st).2.2 = true -> key' <> key ->
  let st2 := (LRU_Set key' entry (LRU_Get key st).1).1 in
  (LRU_Get key st2).2.2 = false ->
  (length (lru st2) <= 1)%nat.
Proof.
  intros Hmb Hops Hfit st Hhit Hne st2 Hlost.
  assert (inv st) as Hinv by (apply inv_run; [by apply inv_New|done]).
  pose proof (inv_Get _ key Hinv) as Hinv1.
  pose proof (inv_Set _ key' entry Hinv1 Hfit) as (Hwf2 & _ & _). fold st2 in Hwf2.
  pose proof (inv_currentBytes _ Hinv1) as Hcb1.
  destruct Hinv as (Hwf & _ & _). destruct Hinv1 as (Hwf1 & _ & _).
  rewrite LRU_Get_result in Hhit.
  destruct (cache st !! key) as [el|] eqn:Hlk; [|done].
  apply (wf_index _ Hwf) in Hlk as Hidx. destruct Hidx as [Hin Hkey].
  assert (lru (LRU_Get key st).1 = el :: list_Remove el (lru st)) as Hfront.
  { unfold LRU_Get, Get_lookup. rewrite Hlk. cbn [fst lru Get_promote].
    unfold list_MoveToFront. by rewrite decide_True. }
  assert (elems (LRU_Get key st).1 = elems st) as Helems.
  { unfold LRU_Get, Get_lookup. by rewrite Hlk. }
  set (st1 := (LRU_Get key st).1) in *.
  destruct (Set_insert_second st1 key' entry el _ key Hwf1 Hfront) as
    (x & rest' & Hlru & Hk); [by rewrite Helems|done|].
  assert (wf (Set_insert key' entry st1)) as Hwfi by (apply wf_Set_insert; [done..|lia]).
  destruct (evict_spec (length (lru (Set_insert key' entry st1))) _ Hwfi ltac:(lia))
    as (n & Hn & Htake & _).
  unfold st2, LRU_Set in *. cbn [fst] in *.
  rewrite Htake, length_take. destruct (decide (n <= 1)%nat) as [?|Hbig]; [lia|].
  exfalso. rewrite LRU_Get_result in Hlost.
  assert (cache (evict (length (lru (Set_insert key' entry st1)))
                   (Set_insert key' entry st1)) !! key = Some el) as Hstill.
  { apply (wf_index _ Hwf2). rewrite evict_elems. split; [|done].
    rewrite Htake, Hlru. destruct n as [|[|n]]; [lia..|].
    simpl. right. by left. }
  by rewrite Hstill in Hlost.
Qed.

Lemma most_recent_evicted_last_witness :
  let big := sample_entry "0123456789" ∅ in
  let st := run [OpSet "a" (sample_entry "" ∅)] (NewInMemoryQuotaLRU 0) in
  (length (lru (LRU_Set "b" big (LRU_Get "a" st).1).1) <= 1)%nat.
Proof.
  refine (most_recent_evicted_last 0 [OpSet "a" (sample_entry "" ∅)] "a" "b"
            (sample_entry "0123456789" ∅) _ _ _ _ _ _).
  - lia.
  - repeat constructor; vm_compute; reflexivity.
  - vm_compute; reflexivity.
  - vm_compute; reflexivity.
  - discriminate.
  - vm_compute; reflexivity.
Defined.

(** X8.  After any sequence of calls the index has as many keys as the
    recency list has elements, and every indexed key is held by a listed
    element: index and list never drift apart. *)
Theorem index_matches_list (maxMB : Z) (ops : list Op) :
  - 2 ^ 42 < maxMB < 2 ^ 42 -> Forall op_fits ops ->
  let st := run ops (NewInMemoryQuotaLRU maxMB) in
  size (cache st) = length (lru st) /\
  NoDup (lru st) /\
  forall k el, cache st !! k = Some el <->
    el ∈ lru st /\ lruEntry.key <$> elems st !! el = Some k.
Proof.
  intros Hmb Hops st.
  assert (inv st) as (Hwf & _ & _) by (apply inv_run; [by apply inv_New|done]).
  split; [by apply wf_cache_size|]. split; apply Hwf.
Qed.

Lemma index_matches_list_witness :
  let st := run [OpSet "a" (sample_entry "aaa" ∅); OpSet "a" (sample_entry "b" ∅);
                 OpSet "c" (sample_entry "cc" ∅); OpDelete "a"]
              (NewInMemoryQuotaLRU 1) in
  size (cache st) = length (lru st).
Proof.
  refine (proj1 (index_matches_list 1
            [OpSet "a" (sample_entry "aaa" ∅); OpSet "a" (sample_entry "b" ∅);
             OpSet "c" (sample_entry "cc" ∅); OpDelete "a"] _ _)).
  - lia.
  - repeat constructor; vm_compute; reflexivity.
Defined.

(** ** The recorder: what is buffered *)

Section RecorderBuffer.

Context {W : Type} `{ResponseWriter W}.

Implicit Types (r : ResponseRecorder.t W) (p : bytes) (acts : list Action).

Import ResponseRecorder.

Lemma play_capReached_nocap acts r :
  maxBytes r <= 0 -> capReached (play acts r).1 = capReached r.
Proof.
  revert r. induction acts as [|a acts IH]; intros r Hcap; [done|].
  destruct a as [op|statusCode|p|]; cbn [play]; [| | |done].
  - by rewrite (IH (rw_Header_apply op r)).
  - by rewrite (IH (rw_WriteHeader statusCode r)).
  - change (rw_Write p r) with (Write p r).
    destruct (Write_frame p r) as (_ & _ & _ & Hmax & _).
    rewrite IH by lia. unfold Write.
    destruct (Z.leb_spec (maxBytes r) 0); [done|lia].
Qed.

(** The mark is set only on a full buffer. *)
Lemma Write_capReached_full p r :
  0 < maxBytes r <= Int64.max_int -> len (body r) <= maxBytes r ->
  (capReached r = true -> len (body r) = maxBytes r) ->
  capReached (Write p r).1 = true -> len (body (Write p r).1) = maxBytes r.
Proof.
  intros Hcap Hlen Hfull. unfold Write.
  destruct (Z.leb_spec (maxBytes r) 0) as [?|_]; [lia|].
  assert (Int64.sub (maxBytes r) (len (body r)) = maxBytes r - len (body r)) as ->.
  { unfold Int64.sub. apply wrap64_id.
    unfold Int64.in_range, Int64.min_int, Int64.max_int, len in *. lia. }
  unfold len in *.
  destruct (Z.leb_spec (maxBytes r - Z.of_nat (length (body r))) 0) as [Hnone|Hroom].
  - simpl. lia.
  - destruct (Z.leb_spec (Z.of_nat (length p))
                (maxBytes r - Z.of_nat (length (body r)))) as [Hfits|Hover].
    + simpl. intros Hmark. specialize (Hfull Hmark). lia.
    + simpl. intros _. rewrite length_app, length_take. lia.
Qed.

Lemma play_capReached_full acts r :
  0 < maxBytes r <= Int64.max_int -> len (body r) <= maxBytes r ->
  (capReached r = true -> len (body r) = maxBytes r) ->
  capReached (play acts r).1 = true ->
  len (body (play acts r).1) = maxBytes r.
Proof.
  revert r. induction acts as [|a acts IH]; intros r Hcap Hlen Hfull; [done|].
  destruct a as [op|statusCode|p|]; cbn [play]; [| | |done].
  - intros Hmark. exact (IH (rw_Header_apply op r) Hcap Hlen Hfull Hmark).
  - intros Hmark. exact (IH (rw_WriteHeader statusCode r) Hcap Hlen Hfull Hmark).
  - change (rw_Write p r) with (Write p r).
    destruct (Write_frame p r) as (_ & _ & _ & Hmax & _).
    intros Hmark. rewrite <- Hmax. apply IH; rewrite ?Hmax; [done| |  |done].
    + rewrite Write_body by done. unfold len. rewrite length_take. lia.
    + by apply Write_capReached_full.
Qed.

(** A handler is played in two parts. *)
Lemma play_app {V : Type} `{ResponseWriter V} (acts1 acts2 : list Action) (w : V) :
  play (acts1 ++ acts2) w
  = if (play acts1 w).2 then play acts1 w else play acts2 (play acts1 w).1.
Proof.
  revert w. induction acts1 as [|a acts1 IH]; intros w; [done|].
  destruct a; cbn [play app]; (done || apply IH).
Qed.

End RecorderBuffer.

(** X9.  With a cap that is zero or negative the recorder keeps every
    byte the handler writes and is never marked over capacity. *)
Theorem recorder_without_cap {W : Type} `{ResponseWriter W}
    (responseWriter : W) (maxBodyBytes : Z) (acts : list Action) :
  maxBodyBytes <= 0 ->
  let r := (play acts (ResponseRecorder.NewResponseRecorder responseWriter maxBodyBytes)).1 in
  ResponseRecorder.body r = bytes_written acts /\
  ResponseRecorder.capReached r = false.
Proof.
  intros Hcap r. split.
  - unfold r. by rewrite play_body_nocap.
  - unfold r. by rewrite play_capReached_nocap.
Qed.

Lemma recorder_without_cap_witness :
  let acts := [ActWrite (bytes_of_string "hello"); ActWrite (bytes_of_string " world")] in
  let r := (play acts (ResponseRecorder.NewResponseRecorder ([] : Log) 0)).1 in
  ResponseRecorder.body r = bytes_written acts /\
  ResponseRecorder.capReached r = false.
Proof.
  refine (recorder_without_cap ([] : Log) 0 _ _). lia.
Defined.

(** X10.  With a positive cap the buffer is the first [MaxBodyBytes]
    bytes of what the handler wrote, whatever the number and the sizes of
    the writes; it never holds more than the cap. *)
Theorem recorder_buffer_is_prefix {W : Type} `{ResponseWriter W}
    (responseWriter : W) (maxBodyBytes : Z) (acts : list Action) :
  0 < maxBodyBytes <= Int64.max_int ->
  let r := (play acts (ResponseRecorder.NewResponseRecorder responseWriter maxBodyBytes)).1 in
  ResponseRecorder.body r = take (Z.to_nat maxBodyBytes) (bytes_written acts) /\
  len (ResponseRecorder.body r) <= maxBodyBytes.
Proof.
  intros Hcap r.
  assert (ResponseRecorder.body r = take (Z.to_nat maxBodyBytes) (bytes_written acts))
    as Hbody.
  { unfold r. rewrite play_body; [done..|]. simpl. unfold len. simpl. lia. }
  split; [done|]. rewrite Hbody. unfold len. rewrite length_take. lia.
Qed.

Lemma recorder_buffer_is_prefix_witness :
  let acts := [ActWrite (bytes_of_string "hel"); ActWrite (bytes_of_string "lo");
               ActWrite (bytes_of_string "!")] in
  let r := (play acts (ResponseRecorder.NewResponseRecorder ([] : Log) 4)).1 in
  ResponseRecorder.body r = take (Z.to_nat 4) (bytes_written acts) /\
  len (ResponseRecorder.body r) <= 4.
Proof.
  refine (recorder_buffer_is_prefix ([] : Log) 4 _ _). unfold Int64.max_int. lia.
Defined.

(** X11.  With a positive cap: writing more bytes than the cap marks
    the recorder over capacity; a recorder that is marked has a full
    buffer; and a recorder that is not marked has lost nothing, its
    buffer is everything the handler wrote. *)
Theorem recorder_mark_and_buffer {W : Type} `{ResponseWriter W}
    (responseWriter : W) (maxBodyBytes : Z) (acts : list Action) :
  0 < maxBodyBytes <= Int64.max_int ->
  let r := (play acts (ResponseRecorder.NewResponseRecorder responseWriter maxBodyBytes)).1 in
  (maxBodyBytes < len (bytes_written acts) -> ResponseRecorder.capReached r = true) /\
  (ResponseRecorder.capReached r = true -> len (ResponseRecorder.body r) = maxBodyBytes) /\
  (ResponseRecorder.capReached r = false -> ResponseRecorder.body r = bytes_written acts).
Proof.
  intros Hcap r.
  set (r0 := ResponseRecorder.NewResponseRecorder responseWriter maxBodyBytes).
  assert (len (ResponseRecorder.body r0) <= ResponseRecorder.maxBytes r0) as Hlen0.
  { unfold len. simpl. lia. }
  assert (maxBodyBytes < len (bytes_written acts) -> ResponseRecorder.capReached r = true)
    as Hover.
  { intros Hlong. by apply (play_capReached acts r0). }
  split; [done|]. split.
  - intros Hmark. by apply (play_capReached_full acts r0).
  - intros Hclear. unfold r. rewrite (play_body acts r0) by done.
    apply take_ge. destruct (decide (maxBodyBytes < len (bytes_written acts))) as [Hlong|Hshort].
    + rewrite (Hover Hlong) in Hclear. done.
    + simpl. unfold len in Hshort. lia.
Qed.

Lemma recorder_mark_and_buffer_witness :
  let acts := [ActWrite (bytes_of_string "hel"); ActWrite (bytes_of_string "lo")] in
  let r := (play acts (ResponseRecorder.NewResponseRecorder ([] : Log) 4)).1 in
  ResponseRecorder.capReached r = true /\ len (ResponseRecorder.body r) = 4.
Proof.
  intros acts r.
  destruct (recorder_mark_and_buffer ([] : Log) 4 acts) as (Hover & Hfull & _).
  - unfold Int64.max_int. lia.
  - assert (ResponseRecorder.capReached r = true) as Hmark.
    { apply Hover. vm_compute. reflexivity. }
    split; [exact Hmark|exact (Hfull Hmark)].
Defined.

(** X12.  The recorder keeps the status of the last [WriteHeader] call:
    a later call overrides an earlier one, also after body bytes were
    written. *)
Theorem recorder_keeps_last_status {W : Type} `{ResponseWriter W}
    (r : ResponseRecorder.t W) (acts1 acts2 : list Action) (statusCode : Z) :
  panics acts1 = false ->
  forallb (fun a => negb (is_WriteHeader a)) acts2 = true ->
  ResponseRecorder.status
    (play (acts1 ++ ActWriteHeader statusCode :: acts2) r).1 = statusCode.
Proof.
  intros Hpanic Hno. rewrite play_app.
  destruct (play_frame acts1 r) as (_ & _ & _ & ->). rewrite Hpanic.
  cbn [play]. by rewrite play_status.
Qed.

Lemma recorder_keeps_last_status_witness :
  ResponseRecorder.status
    (play ([ActWriteHeader 200; ActWrite (bytes_of_string "partial")]
           ++ ActWriteHeader 500 :: [ActWrite (bytes_of_string "oops")])
          (ResponseRecorder.NewResponseRecorder ([] : Log) 0)).1 = 500.
Proof.
  refine (recorder_keeps_last_status _ _ _ 500 _ _); reflexivity.
Defined.


(** ** The middleware: the paths of a request *)

Lemma play_flag {V : Type} `{ResponseWriter V} (acts : list Action) (w : V) :
  (play acts w).2 = panics acts.
Proof.
  revert w. induction acts as [|a acts IH]; intros w; [done|].
  destruct a; cbn [play panics]; (done || apply IH).
Qed.

Section RecorderComplete.

Context {W : Type} `{ResponseWriter W}.

Import ResponseRecorder.

(** A recorder that is not marked holds everything that was written. *)
Lemma play_body_complete (responseWriter : W) (maxBodyBytes : Z) (acts : list Action) :
  maxBodyBytes <= Int64.max_int ->
  capReached (play acts (NewResponseRecorder responseWriter maxBodyBytes)).1 = false ->
  body (play acts (NewResponseRecorder responseWriter maxBodyBytes)).1
  = bytes_written acts.
Proof.
  intros Hmax Hclear. set (r0 := NewResponseRecorder responseWriter maxBodyBytes) in *.
  destruct (decide (maxBodyBytes <= 0)) as [Hoff|Hon].
  - by rewrite play_body_nocap.
  - assert (0 < maxBytes r0 <= Int64.max_int) as Hcap by (simpl; lia).
    assert (len (body r0) <= maxBytes r0) as Hlen by (unfold len; simpl; lia).
    rewrite play_body by done. apply take_ge.
    destruct (decide (maxBytes r0 < len (body r0 ++ bytes_written acts))) as [Hlong|Hshort].
    + rewrite (play_capReached acts r0 Hcap Hlen Hlong) in Hclear. done.
    + simpl in *. unfold len in Hshort. lia.
Qed.

End RecorderComplete.

Section ClientWriter.

Lemma Client_header_fold_frame (l : list (string * string)) (c : Client.t) :
  let c' := foldl (fun d kv => rw_Header_apply (Header.OpAdd kv.1 kv.2) d) c l in
  Client.wroteHeader c' = Client.wroteHeader c /\
  Client.Code c' = Client.Code c /\
  Client.Body c' = Client.Body c.
Proof.
  revert c. induction l as [|kv l IH]; intros c; [done|].
  cbn [foldl]. destruct (IH (rw_Header_apply (Header.OpAdd kv.1 kv.2) c)) as (-> & -> & ->).
  done.
Qed.

End ClientWriter.

Section Paths.

Context {S : Type} `{Store S}.

Variable cfg : Config.

(** Past the method and key tests, a lookup that is not servable leads
    to the miss path, on the writer as it was or with the diagnostic
    header set. *)
Lemma middleware_miss_path {W : Type} `{ResponseWriter W} (next : Handler)
    (now : Time) (store store' : S) (responseWriter : W) (request : Request)
    (found : option ResponseCacheEntry) (cacheHit : bool) :
  Method request = "GET"%string \/ Method request = "HEAD"%string ->
  KeyGenerator cfg request <> ""%string ->
  Store_Get (KeyGenerator cfg request) store = (store', (found, cacheHit)) ->
  servable now found cacheHit = None ->
  NewCacheMiddleware cfg next now store responseWriter request
  = serve_miss cfg next now store'
      (if negb cacheHit
       then rw_Header_apply (Header.OpSet "X-Cache-Status" "MISS") responseWriter
       else responseWriter)
      request (KeyGenerator cfg request).
Proof.
  intros Hmethod Hkey Hget Hserv. unfold NewCacheMiddleware.
  assert (negb (Method request =? "GET")%string
          && negb (Method request =? "HEAD")%string = false) as ->.
  { destruct Hmethod as [-> | ->]; done. }
  apply String.eqb_neq in Hkey. by rewrite Hkey, Hget, Hserv.
Qed.

Lemma middleware_hit_path {W : Type} `{ResponseWriter W} (next : Handler)
    (now : Time) (store store' : S) (responseWriter : W) (request : Request)
    (entry : ResponseCacheEntry) :
  Method request = "GET"%string \/ Method request = "HEAD"%string ->
  KeyGenerator cfg request <> ""%string ->
  Store_Get (KeyGenerator cfg request) store = (store', (Some entry, true)) ->
  IsRotten now entry = false ->
  NewCacheMiddleware cfg next now store responseWriter request
  = serve_hit now store' responseWriter request (KeyGenerator cfg request) entry.
Proof.
  intros Hmethod Hkey Hget Hrotten. unfold NewCacheMiddleware.
  assert (negb (Method request =? "GET")%string
          && negb (Method request =? "HEAD")%string = false) as ->.
  { destruct Hmethod as [-> | ->]; done. }
  apply String.eqb_neq in Hkey. rewrite Hkey, Hget.
  unfold servable. by rewrite Hrotten.
Qed.

(** What the miss path starts: nothing, or one [store.Set] of a
    complete capture. *)
Lemma serve_miss_spawned {W : Type} `{ResponseWriter W} (next : Handler)
    (now : Time) (store : S) (responseWriter : W) (request : Request)
    (cacheKey : string) :
  MaxBodyBytes cfg <= Int64.max_int ->
  let out := serve_miss cfg next now store responseWriter request cacheKey in
  out_spawned out = [] \/
  exists newEntry,
    out_spawned out = [GoSet cacheKey newEntry] /\
    panics (next request) = false /\
    ShouldCache cfg (StatusCode newEntry) = true /\
    Body newEntry = bytes_written (next request) /\
    CreatedAt newEntry = now /\
    TTL newEntry = DefaultTTL cfg /\ SWR newEntry = DefaultSWR cfg.
Proof.
  intros Hmax out. unfold out, serve_miss, ServeHTTP.
  set (r0 := ResponseRecorder.NewResponseRecorder responseWriter (MaxBodyBytes cfg)).
  pose proof (play_flag (next request) r0) as Hflag.
  pose proof (play_body_complete responseWriter (MaxBodyBytes cfg) (next request) Hmax)
    as Hbody. fold r0 in Hbody.
  destruct (play (next request) r0) as [rec panicked]. cbn [fst snd] in *.
  destruct panicked; [by left|].
  unfold capture_entry.
  destruct (ShouldCache cfg (ResponseRecorder.StatusCode rec)) eqn:Hshould; [|by left].
  destruct (ResponseRecorder.capReached rec) eqn:Hmark; [by left|].
  right. eexists. cbn [out_spawned andb negb]. split; [done|].
  cbn [StatusCode Body CreatedAt TTL SWR]. repeat split; try done.
  by apply Hbody.
Qed.

End Paths.

(** X14.  A request whose method is neither GET nor HEAD, or whose key
    is empty, bypasses the cache: the handler runs directly on the real
    writer, no header is added, the store is not consulted and nothing
    is started; a panic of the handler is not recovered. *)
Theorem bypass_runs_handler_directly {S : Type} `{Store S} {W : Type}
    `{ResponseWriter W} (cfg : Config) (next : Handler) (now : Time) (store : S)
    (responseWriter : W) (request : Request) :
  (Method request <> "GET"%string /\ Method request <> "HEAD"%string) \/
  KeyGenerator cfg request = ""%string ->
  let out := NewCacheMiddleware cfg next now store responseWriter request in
  out_writer out = (play (next request) responseWriter).1 /\
  out_store out = store /\
  out_spawned out = [] /\
  out_panic out = panics (next request).
Proof.
  intros Hby out. unfold out, NewCacheMiddleware, ServeHTTP.
  pose proof (play_flag (next request) responseWriter) as Hflag.
  destruct Hby as [[Hget Hhead]|Hkey].
  - apply String.eqb_neq in Hget, Hhead. rewrite Hget, Hhead. cbn [negb andb].
    destruct (play (next request) responseWriter) as [w panicked]. by subst.
  - destruct (negb (Method request =? "GET")%string
              && negb (Method request =? "HEAD")%string).
    + destruct (play (next request) responseWriter) as [w panicked]. by subst.
    + rewrite Hkey. cbn [String.eqb].
      destruct (play (next request) responseWriter) as [w panicked]. by subst.
Qed.

Lemma bypass_runs_handler_directly_witness :
  let request := {| Method := "POST"; Path := "/"; ReqHeader := ∅;
                    ContentLength := 0; ReqBody := [] |} in
  let out := NewCacheMiddleware (sample_config 1024) (sample_handler "made")
               0 (NewInMemoryQuotaLRU 2) ([] : Log) request in
  out_writer out = [CallWriteHeader 200; CallWrite (bytes_of_string "made")] /\
  out_spawned out = [].
Proof.
  intros request out.
  destruct (bypass_runs_handler_directly (sample_config 1024) (sample_handler "made")
              0 (NewInMemoryQuotaLRU 2) ([] : Log) request) as (Hw & _ & Hs & _).
  - left. split; discriminate.
  - split; [exact Hw|exact Hs].
Defined.

Section HitPath.

Context {S : Type} `{Store S}.

(** The stored entry as the client receives it. *)
Lemma serve_hit_Client (now : Time) (store : S) (request : Request)
    (cacheKey : string) (entry : ResponseCacheEntry) :
  let out := serve_hit now store Client.NewRecorder request cacheKey entry in
  Client.Code (out_writer out) = StatusCode entry /\
  Client.Body (out_writer out) = Body entry /\
  Header.Get "X-Cache-Status" (Client.HeaderMap (out_writer out)) = "HIT"%string /\
  Header.Get "X-Cache-Stale" (Client.HeaderMap (out_writer out))
    = (if IsStale now entry then "YES" else "NO")%string /\
  out_spawned out = (if IsStale now entry then [GoRefresh cacheKey request] else []) /\
  out_store out = store.
Proof.
  intros out. unfold out, serve_hit.
  set (c0 := foldl (fun w kv => rw_Header_apply (Header.OpAdd kv.1 kv.2) w)
               Client.NewRecorder (Header.pairs (Headers entry))).
  destruct (Client_header_fold_frame (Header.pairs (Headers entry)) Client.NewRecorder)
    as (Hwrote & Hcode & Hbody). fold c0 in Hwrote, Hcode, Hbody.
  assert (forall v : string,
    let w1 := rw_Header_apply (Header.OpSet "X-Cache-Stale" v)
                (rw_Header_apply (Header.OpSet "X-Cache-Status" "HIT") c0) in
    let w2 := rw_WriteHeader (StatusCode entry) w1 in
    let w3 := if len (Body entry) >? 0 then (rw_Write (Body entry) w2).1 else w2 in
    Client.Code w3 = StatusCode entry /\
    Client.Body w3 = Body entry /\
    Header.Get "X-Cache-Status" (Client.HeaderMap w3) = "HIT"%string /\
    Header.Get "X-Cache-Stale" (Client.HeaderMap w3) = v) as Hserve.
  { intros v w1 w2 w3.
    assert (Client.wroteHeader w1 = false) as Hw1 by (simpl; by rewrite Hwrote).
    assert (w2 = {| Client.HeaderMap := Client.HeaderMap w1;
                    Client.Code := StatusCode entry;
                    Client.wroteHeader := true;
                    Client.snapHeader := Header.Clone (Client.HeaderMap w1);
                    Client.Body := Client.Body w1 |}) as Hw2.
    { unfold w2. cbn [rw_WriteHeader Client_ResponseWriter]. unfold Client.WriteHeader.
      by rewrite Hw1. }
    assert (Client.Body w1 = []) as Hb1 by (simpl; by rewrite Hbody).
    assert (Header.Get "X-Cache-Status" (Client.HeaderMap w1) = "HIT"%string
            /\ Header.Get "X-Cache-Stale" (Client.HeaderMap w1) = v) as [Hh1 Hh2].
    { unfold w1. cbn [rw_Header_apply Client_ResponseWriter Client.HeaderMap Header.apply].
      unfold Header.Get, Header.Set_, Header.t.
      change (Header.CanonicalMIMEHeaderKey "X-Cache-Status") with "X-Cache-Status"%string.
      change (Header.CanonicalMIMEHeaderKey "X-Cache-Stale") with "X-Cache-Stale"%string.
      rewrite lookup_insert_ne by discriminate.
      by rewrite !lookup_insert_eq. }
    unfold w3. destruct (Z.gtb_spec (len (Body entry)) 0) as [Hpos|Hzero].
    - rewrite Hw2. cbn [rw_Write Client_ResponseWriter]. unfold Client.Write, Client.WriteHeader.
      cbn [Client.wroteHeader fst Client.Code Client.Body Client.HeaderMap].
      rewrite Hb1. done.
    - rewrite Hw2. cbn [Client.Code Client.Body Client.HeaderMap].
      rewrite Hb1. split; [done|]. split; [|done].
      symmetry. apply nil_length_inv. unfold len in Hzero. lia. }
  destruct (IsStale now entry) eqn:Hstale.
  - destruct (Hserve "YES"%string) as (H1 & H2 & H3 & H4).
    cbn [out_writer out_spawned out_store]. by repeat split.
  - destruct (Hserve "NO"%string) as (H1 & H2 & H3 & H4).
    cbn [out_writer out_spawned out_store]. by repeat split.
Qed.

End HitPath.

(** X15.  A lookup that finds an entry that is not rotten is answered
    from the entry: the client receives the stored status and body with
    [X-Cache-Status: HIT], the handler is not run (the outcome is the same
    for every handler), and a background refresh is started exactly when
    the entry is stale, [X-Cache-Stale] saying which. *)
Theorem hit_serves_stored_entry {S : Type} `{Store S} (cfg : Config)
    (next : Handler) (now : Time) (store store' : S) (request : Request)
    (entry : ResponseCacheEntry) :
  Method request = "GET"%string \/ Method request = "HEAD"%string ->
  KeyGenerator cfg request <> ""%string ->
  Store_Get (KeyGenerator cfg request) store = (store', (Some entry, true)) ->
  IsRotten now entry = false ->
  let out := NewCacheMiddleware cfg next now store Client.NewRecorder request in
  Client.Code (out_writer out) = StatusCode entry /\
  Client.Body (out_writer out) = Body entry /\
  Header.Get "X-Cache-Status" (Client.HeaderMap (out_writer out)) = "HIT"%string /\
  Header.Get "X-Cache-Stale" (Client.HeaderMap (out_writer out))
    = (if IsStale now entry then "YES" else "NO")%string /\
  out_spawned out
    = (if IsStale now entry then [GoRefresh (KeyGenerator cfg request) request] else []) /\
  out_store out = store' /\
  forall next' : Handler,
    NewCacheMiddleware cfg next' now store Client.NewRecorder request = out.
Proof.
  intros Hmethod Hkey Hget Hrotten out.
  assert (forall next' : Handler,
            NewCacheMiddleware cfg next' now store Client.NewRecorder request
            = serve_hit now store' Client.NewRecorder request
                (KeyGenerator cfg request) entry) as Hpath.
  { intros next'. by apply middleware_hit_path. }
  unfold out. rewrite (Hpath next).
  destruct (serve_hit_Client now store' request (KeyGenerator cfg request) entry)
    as (H1 & H2 & H3 & H4 & H5 & H6).
  repeat split; try done; intros next'; by rewrite Hpath.
Qed.

Lemma hit_serves_stored_entry_witness :
  let store :=
    (LRU_Set "cache:GET:/" (sample_entry "kept" ∅) (NewInMemoryQuotaLRU 2)).1 in
  let out := NewCacheMiddleware (sample_config 1024) (sample_handler "new") 1200
               store Client.NewRecorder sample_request in
  Client.Body (out_writer out) = bytes_of_string "kept" /\
  out_spawned out = [GoRefresh "cache:GET:/" sample_request].
Proof.
  intros store out.
  destruct (hit_serves_stored_entry (sample_config 1024) (sample_handler "new") 1200
              store (LRU_Get "cache:GET:/" store).1 sample_request
              (sample_entry "kept" ∅)) as (_ & Hbody & _ & _ & Hspawn & _).
  - by left.
  - discriminate.
  - vm_compute. reflexivity.
  - vm_compute. reflexivity.
  - split; [exact Hbody|exact Hspawn].
Defined.

Section MissPath.

Context {S : Type} `{Store S}.

Variable cfg : Config.



End MissPath.



(** X17.  The miss path starts at most one [store.Set], for the key of
    the request, and what it stores is complete: the handler returned
    without a panic, the status passes [ShouldCache], and the stored body
    is every byte the handler wrote, stamped with the current time and
    the configured TTL and SWR. *)
Theorem miss_stores_complete_capture {S : Type} `{Store S} {W : Type}
    `{ResponseWriter W} (cfg : Config) (next : Handler) (now : Time)
    (store store' : S) (responseWriter : W) (request : Request)
    (found : option ResponseCacheEntry) (cacheHit : bool) :
  Method request = "GET"%string \/ Method request = "HEAD"%string ->
  KeyGenerator cfg request <> ""%string ->
  Store_Get (KeyGenerator cfg request) store = (store', (found, cacheHit)) ->
  servable now found cacheHit = None ->
  MaxBodyBytes cfg <= Int64.max_int ->
  let out := NewCacheMiddleware cfg next now store responseWriter request in
  out_spawned out = [] \/
  exists newEntry,
    out_spawned out = [GoSet (KeyGenerator cfg request) newEntry] /\
    panics (next request) = false /\
    ShouldCache cfg (StatusCode newEntry) = true /\
    Body newEntry = bytes_written (next request) /\
    CreatedAt newEntry = now /\
    TTL newEntry = DefaultTTL cfg /\ SWR newEntry = DefaultSWR cfg.
Proof.
  intros Hmethod Hkey Hget Hserv Hmax out.
  unfold out. rewrite (middleware_miss_path cfg next now store store' _ request
                         found cacheHit) by done.
  by apply serve_miss_spawned.
Qed.

Lemma miss_stores_complete_capture_witness :
  let out := NewCacheMiddleware (sample_config 1024) (sample_handler "fresh") 7
               (NewInMemoryQuotaLRU 2) ([] : Log) sample_request in
  out_spawned out = [] \/
  exists newEntry,
    out_spawned out = [GoSet "cache:GET:/" newEntry] /\
    panics (sample_handler "fresh" sample_request) = false /\
    ShouldCache (sample_config 1024) (StatusCode newEntry) = true /\
    Body newEntry = bytes_written (sample_handler "fresh" sample_request) /\
    CreatedAt newEntry = 7 /\
    TTL newEntry = 1000 /\ SWR newEntry = 1500.
Proof.
  refine (miss_stores_complete_capture (sample_config 1024) (sample_handler "fresh") 7
            (NewInMemoryQuotaLRU 2) (NewInMemoryQuotaLRU 2) ([] : Log) sample_request
            None false _ _ _ _ _).
  - by left.
  - discriminate.
  - reflexivity.
  - reflexivity.
  - vm_compute. discriminate.
Defined.

(** X18.  A background refresh stores at most one entry, under the key
    it was started for, and only a complete one: the handler returned
    without a panic (a panic is recovered and nothing is stored), the
    status passes [ShouldCache], and the stored body is every byte the
    handler wrote, stamped with the time of the refresh and the
    configured TTL and SWR. *)
Theorem refresh_stores_complete_capture (cfg : Config) (next : Handler)
    (now : Time) (cacheKey : string) (req : Request) :
  MaxBodyBytes cfg <= Int64.max_int ->
  refresh cfg next now cacheKey req = None \/
  exists response,
    refresh cfg next now cacheKey req = Some (cacheKey, response) /\
    panics (next req) = false /\
    ShouldCache cfg (StatusCode response) = true /\
    Body response = bytes_written (next req) /\
    CreatedAt response = now /\
    TTL response = DefaultTTL cfg /\ SWR response = DefaultSWR cfg.
Proof.
  intros Hmax. unfold refresh, ServeHTTP.
  set (r0 := ResponseRecorder.NewResponseRecorder (discardResponseWriter.mk ∅)
               (MaxBodyBytes cfg)).
  pose proof (play_flag (next req) r0) as Hflag.
  pose proof (play_body_complete (discardResponseWriter.mk ∅) (MaxBodyBytes cfg)
                (next req) Hmax) as Hbody. fold r0 in Hbody.
  destruct (play (next req) r0) as [rec panicked]. cbn [fst snd] in *.
  destruct panicked; [by left|].
  unfold capture_entry. unfold ResponseRecorder.StatusCode.
  destruct (ShouldCache cfg (ResponseRecorder.status rec)) eqn:Hshould; [|by left].
  destruct (ResponseRecorder.capReached rec) eqn:Hmark; [by left|].
  right. eexists. cbn [andb negb]. split; [done|].
  cbn [StatusCode Body CreatedAt TTL SWR]. repeat split; try done.
  by apply Hbody.
Qed.

Lemma refresh_stores_complete_capture_witness :
  exists response,
    refresh (sample_config 1024) (sample_handler "fresh") 1200 "cache:GET:/"
      sample_request = Some ("cache:GET:/"%string, response) /\
    Body response = bytes_of_string "fresh" /\ CreatedAt response = 1200.
Proof.
  destruct (refresh_stores_complete_capture (sample_config 1024)
              (sample_handler "fresh") 1200 "cache:GET:/" sample_request)
    as [Hnone|(response & Hsome & _ & _ & Hbody & Hat & _)].
  - vm_compute. discriminate.
  - vm_compute in Hnone. discriminate.
  - exists response. split; [exact Hsome|]. split; [exact Hbody|exact Hat].
Defined.



(** ** Keys and freshness *)

Lemma append_colon_inj (m1 m2 p1 p2 : string) :
  no_colon m1 = true -> no_colon m2 = true ->
  String.append m1 (String ":" p1) = String.append m2 (String ":" p2) ->
  m1 = m2 /\ p1 = p2.
Proof.
  revert m2. induction m1 as [|c m1 IH]; intros [|c' m2] H1 H2 Heq;
    cbn [String.append no_colon] in *.
  - by injection Heq as ->.
  - injection Heq as <- _. by rewrite Ascii.eqb_refl in H2.
  - injection Heq as -> _. by rewrite Ascii.eqb_refl in H1.
  - injection Heq as -> Heq.
    apply andb_true_iff in H1 as [_ H1]. apply andb_true_iff in H2 as [_ H2].
    by destruct (IH m2 H1 H2 Heq) as [-> ->].
Qed.

(** X20.  The default key is never empty, so a request is never passed
    by for want of a key, and two requests whose methods hold no colon
    have the same key only if they have the same method and the same
    path. *)
Theorem DefaultKeyGenerator_injective (r1 r2 : Request) :
  no_colon (Method r1) = true -> no_colon (Method r2) = true ->
  DefaultKeyGenerator r1 <> ""%string /\
  (DefaultKeyGenerator r1 = DefaultKeyGenerator r2 ->
   Method r1 = Method r2 /\ Path r1 = Path r2).
Proof.
  intros H1 H2. split; [done|].
  unfold DefaultKeyGenerator. cbn [String.append]. intros [= Heq].
  by apply append_colon_inj.
Qed.

Lemma DefaultKeyGenerator_injective_witness :
  DefaultKeyGenerator sample_request <> ""%string /\
  (DefaultKeyGenerator sample_request = DefaultKeyGenerator sample_request ->
   Method sample_request = Method sample_request /\
   Path sample_request = Path sample_request).
Proof.
  refine (DefaultKeyGenerator_injective sample_request sample_request _ _);
    reflexivity.
Defined.

(** X21.  Freshness only degrades: an entry that is stale at some time
    is stale at every later time, and an entry that is rotten stays
    rotten, whatever its TTL and SWR. *)
Theorem staleness_is_monotone (now now' : Time) (e : ResponseCacheEntry) :
  now <= now' ->
  (IsStale now e = true -> IsStale now' e = true) /\
  (IsRotten now e = true -> IsRotten now' e = true).
Proof.
  intros Hle. unfold IsStale, IsRotten, time_Since, Time_Sub.
  split; intros Hold;
    match goal with
    | H : (?a >? ?t) = true |- (?b >? ?t) = true =>
        destruct (Z.gtb_spec a t); [|discriminate];
        destruct (Z.gtb_spec b t); [done|lia]
    end.
Qed.

Lemma staleness_is_monotone_witness :
  let e := sample_entry "x" ∅ in
  (IsStale 1200 e = true -> IsStale 5000 e = true) /\
  (IsRotten 1200 e = true -> IsRotten 5000 e = true).
Proof.
  refine (staleness_is_monotone 1200 5000 (sample_entry "x" ∅) _). lia.
Defined.

(** ** The header sanitizer, as it behaves *)

Section StripFacts.

Implicit Types (header : Header.t) (k : string).

Lemma stripHopByHop_no_Connection header :
  Header.Get "Connection" (stripHopByHop header) = ""%string.
Proof.
  unfold Header.Get. rewrite stripHopByHop_lookup.
  rewrite decide_True; [done|].
  rewrite map_app. apply elem_of_app. left.
  change (Header.CanonicalMIMEHeaderKey "Connection") with "Connection"%string.
  vm_compute. by left.
Qed.

Lemma connection_tokens_none header :
  Header.Get "Connection" header = ""%string -> connection_tokens header = [].
Proof. intros Hget. unfold connection_tokens. by rewrite Hget. Qed.

End StripFacts.


(** X23.  Sanitizing twice is sanitizing once. *)
Theorem stripHopByHop_idempotent (header : Header.t) :
  stripHopByHop (stripHopByHop header) = stripHopByHop header.
Proof.
  apply map_eq. intros k.
  rewrite (stripHopByHop_lookup (stripHopByHop header)).
  rewrite (connection_tokens_none _ (stripHopByHop_no_Connection header)), app_nil_r.
  case_decide as Hin; [|done].
  rewrite stripHopByHop_lookup. rewrite decide_True; [done|].
  rewrite map_app. apply elem_of_app. by left.
Qed.

(** X24.  A header map that carries none of the nine connection headers
    comes out of the sanitizer unchanged. *)
Theorem stripHopByHop_clean_input (header : Header.t) :
  (forall k, k ∈ hopByHopHeaders ->
     header !! Header.CanonicalMIMEHeaderKey k = None) ->
  stripHopByHop header = header.
Proof.
  intros Hclean. apply map_eq. intros k.
  assert (Header.Get "Connection" header = ""%string) as Hconn.
  { unfold Header.Get. rewrite (Hclean "Connection"%string); [done|].
    vm_compute. by left. }
  rewrite stripHopByHop_lookup, (connection_tokens_none _ Hconn), app_nil_r.
  case_decide as Hin; [|done].
  apply list_elem_of_fmap in Hin as (k0 & -> & Hin0). symmetry. by apply Hclean.
Qed.

Lemma stripHopByHop_clean_input_witness :
  let header := Header.Add "Content-Type" "text/plain" (Header.Add "Etag" "abc" ∅) in
  stripHopByHop header = header.
Proof.
  intros header. apply (stripHopByHop_clean_input header).
  intros k Hin. unfold hopByHopHeaders in Hin.
  repeat (apply elem_of_cons in Hin as [->|Hin]; [vm_compute; reflexivity|]).
  by apply elem_of_nil in Hin.
Defined.
